(** * eHub backend: identity and tournament membership

    A shallow embedding of the request handlers of the eHub API server
    (register, login, create tournament, join tournament) together with the
    document store they drive, and the properties of the identity and
    membership subsystem proved about them.

    The handlers are [async] functions that talk to a MongoDB store through
    Mongoose models, hash passwords with bcryptjs and sign bearer tokens with
    jsonwebtoken.  Here a handler is a computation in the [Async] monad: a
    state transformer over the [Store] that either returns a value or throws
    an exception, exactly the two outcomes an awaited promise has.  The
    primitives of the external libraries (the ObjectId cast, the password
    hasher, the MAC) are the fields of the [Platform] class. *)

From Stdlib Require Import ZArith NArith String Ascii List Lia.
From Stdlib Require Import HexadecimalString HexadecimalN.
From stdpp Require Import base option list gmap strings.

Open Scope string_scope.
Open Scope N_scope.

(* ===================================================================== *)
(** ** Identifiers *)
(* ===================================================================== *)

(** A Mongo [ObjectId] is a 12-byte value; it is modelled by the natural
    number it denotes.  Its width plays no role in the handlers. *)
Abbreviation ObjectId := N (only parsing).

(** A run of [k] zero digits. *)
Fixpoint zeros (k : nat) : string :=
  match k with
  | O => ""
  | S k' => String "0" (zeros k')
  end.

(** [ObjectId.prototype.toHexString]: lower-case hexadecimal, padded with
    zeros on the left to 24 digits. *)
Definition toHexString (o : ObjectId) : string :=
  let digits := NilEmpty.string_of_uint (N.to_hex_uint o) in
  zeros (24 - String.length digits) +:+ digits.

(** Reading an identifier back from its hexadecimal text. *)
Definition ofHexString (s : string) : option ObjectId :=
  match s with
  | "" => None
  | _ => N.of_hex_uint <$> NilEmpty.uint_of_string s
  end.

(* ===================================================================== *)
(** ** External collaborators *)
(* ===================================================================== *)

(** What the handlers take from the libraries they call.

    - [castObjectId]: Mongoose's cast of a query value to an ObjectId, as
      [Model.findById] applies it to the route parameter; [None] stands for
      the [CastError] it throws on a string that is no identifier.
    - [bcrypt_hash rounds salt s] and [bcrypt_compare s digest]: bcryptjs.
      The salt that [bcrypt.hash(s, rounds)] draws at random is made an
      explicit argument.
    - [hmac key message]: the MAC under which tokens are signed.
    - [JWT_SECRET]: [process.env.JWT_SECRET], fixed for the process. *)
Class Platform := {
  castObjectId : string → option ObjectId;
  bcrypt_hash : N → string → string → string;
  bcrypt_compare : string → string → bool;
  hmac : string → string → string;
  JWT_SECRET : string
}.

(* ===================================================================== *)
(** ** Data model *)
(* ===================================================================== *)

Module User.
  (** Modelled from the spec: models/user.js is not part of the sources;
      the spec gives a user an identifier assigned at creation, an email
      under a unique index and a password hash. *)
Record t := mk {
  _id : ObjectId;
  email : string;
  password : string
}.
End User.

Module Tournament.
  (** models/tournament.js: [TournamentSchema].  No path is required, so
      [name] and [description] may be absent from a stored document. *)
Record t := mk {
  _id : ObjectId;
  name : option string;
  description : option string;
  createdBy : ObjectId;
  participants : list ObjectId
}.
End Tournament.

Module Claims.
  (** The payload of a token, [{ id, email }], which the auth middleware
      attaches to the request as [req.user]. *)
Record t := mk {
  id : ObjectId;
  email : string
}.
End Claims.

(** The state of the document store: the two collections, and the source
    of fresh identifiers that [new Model(...)] draws from. *)
Record Store := mkStore {
  users : list User.t;
  tournaments : gmap N Tournament.t;
  next_id : ObjectId
}.

Definition empty_store : Store :=
  {| users := []; tournaments := ∅; next_id := 0 |}.

(* ===================================================================== *)
(** ** Awaited computations *)
(* ===================================================================== *)

(** What a rejected promise carries. *)
Inductive Exn :=
| CastError (value : string)       (* Mongoose: value is no ObjectId *)
| IllegalArguments                 (* bcryptjs: argument is not a string *)
| DuplicateKey (key : string).     (* MongoDB E11000 on a unique index *)

(** An awaited computation runs against the store and either fulfils with
    a value or rejects with an exception; writes made before a rejection
    stay. *)
Definition Async (A : Type) : Type := Store → (Exn + A) * Store.

Definition resolve {A} (a : A) : Async A := λ s, (inr a, s).
Definition throw {A} (e : Exn) : Async A := λ s, (inl e, s).

Definition await {A B} (m : Async A) (k : A → Async B) : Async B :=
  λ s, match m s with
       | (inl e, s') => (inl e, s')
       | (inr a, s') => k a s'
       end.

(** [try { body } catch (err) { handler }] around a handler that answers. *)
Definition try_catch {A} (body : Async A) (handler : Exn → Async A) : Async A :=
  λ s, match body s with
       | (inl e, s') => handler e s'
       | (inr a, s') => (inr a, s')
       end.

#[export] Instance Async_ret : MRet Async := @resolve.
#[export] Instance Async_bind : MBind Async := λ A B k m, await m k.

Definition get_store : Async Store := λ s, (inr s, s).
Definition put_store (s' : Store) : Async unit := λ _, (inr tt, s').

(* ===================================================================== *)
(** ** Responses *)
(* ===================================================================== *)

Inductive Body :=
| Message (message : string)                   (* { message } *)
| ServerError (message : string) (error : Exn) (* { message, error: err.message } *)
| Token (token : string)                       (* { token } *)
| Document (tournament : Tournament.t)         (* the tournament document *)
| Unauthenticated.                             (* the refusal of [auth] *)

Record Response := mkResponse {
  status : N;
  body : Body
}.

(** [res.json(b)] answers with the default status, 200. *)
Definition res_json (b : Body) : Response := {| status := 200; body := b |}.
(** [res.status(code).json(b)]. *)
Definition res_status_json (code : N) (b : Body) : Response :=
  {| status := code; body := b |}.

(* ===================================================================== *)
(** ** Models: the operations on the two collections *)
(* ===================================================================== *)

Definition has_email (email : string) (u : User.t) : bool :=
  String.eqb (User.email u) email.

(** [User.findOne({ email })]: the first user with that email. *)
Definition User_findOne (email : string) : Async (option User.t) :=
  s ← get_store;
  mret (find (has_email email) (users s)).

(** [new Model(...)] gives the document a fresh [_id]. *)
Definition fresh_id : Async ObjectId :=
  s ← get_store;
  _ ← put_store {| users := users s; tournaments := tournaments s;
                   next_id := N.succ (next_id s) |};
  mret (next_id s).

Definition new_User (email password : string) : Async User.t :=
  oid ← fresh_id;
  mret {| User._id := oid; User.email := email; User.password := password |}.

(** Modelled from the spec: models/user.js is not part of the sources; the
    spec puts a unique index on email, so [user.save()] for a new user is
    rejected when a stored user has its email. *)
Definition User_save (u : User.t) : Async unit :=
  s ← get_store;
  if existsb (has_email (User.email u)) (users s)
  then throw (DuplicateKey (User.email u))
  else put_store {| users := users s ++ [u]; tournaments := tournaments s;
                    next_id := next_id s |}.

Definition new_Tournament (name description : option string)
    (createdBy : ObjectId) (participants : list ObjectId) : Async Tournament.t :=
  oid ← fresh_id;
  mret {| Tournament._id := oid; Tournament.name := name;
          Tournament.description := description;
          Tournament.createdBy := createdBy;
          Tournament.participants := participants |}.

(** [tournament.save()]: writes the document under its [_id]. *)
Definition Tournament_save (t : Tournament.t) : Async unit :=
  s ← get_store;
  put_store {| users := users s;
               tournaments := <[Tournament._id t := t]> (tournaments s);
               next_id := next_id s |}.

Section Models.
Context `{Platform}.

(** [Tournament.findById(id)]: casts the parameter, then looks it up; the
    promise fulfils with [null] when no document has that identifier. *)
Definition Tournament_findById (id : string) : Async (option Tournament.t) :=
  match castObjectId id with
  | None => throw (CastError id)
  | Some oid => s ← get_store; mret (tournaments s !! oid)
  end.

(** [bcrypt.hash(s, rounds)]; a missing password is [undefined], which
    bcryptjs rejects. *)
Definition bcrypt_hash_async (salt : string) (s : option string) (rounds : N)
    : Async string :=
  match s with
  | None => throw IllegalArguments
  | Some p => mret (bcrypt_hash rounds salt p)
  end.

(** [bcrypt.compare(s, digest)]. *)
Definition bcrypt_compare_async (s : option string) (digest : string)
    : Async bool :=
  match s with
  | None => throw IllegalArguments
  | Some p => mret (bcrypt_compare p digest)
  end.

End Models.

(** [participants.includes(id)] and [participants.push(id)] on the array of
    references of a tournament document.  A Mongoose array of references
    compares identifiers by value, and [push] appends. *)
Definition includes (participants : list ObjectId) (id : ObjectId) : bool :=
  bool_decide (id ∈ participants).

Definition push (t : Tournament.t) (id : ObjectId) : Tournament.t :=
  {| Tournament._id := Tournament._id t;
     Tournament.name := Tournament.name t;
     Tournament.description := Tournament.description t;
     Tournament.createdBy := Tournament.createdBy t;
     Tournament.participants := Tournament.participants t ++ [id] |}.

(* ===================================================================== *)
(** ** Text encodings used by the token *)
(* ===================================================================== *)

(** The token of the spec is an opaque string; it is modelled as a compact
    JSON web token, whose parts are JSON text in base64url.  The encodings
    below are the standard ones. *)

Definition dquote : ascii := "034"%char.
Definition backslash : ascii := "092"%char.

(** Position of a character in a table. *)
Fixpoint index_of (c : ascii) (table : string) : option N :=
  match table with
  | "" => None
  | String d rest =>
      if Ascii.eqb c d then Some 0 else N.succ <$> index_of c rest
  end.

(** The [k]-th character of a table. *)
Definition char_at (table : string) (k : N) : ascii :=
  default "000"%char (String.get (N.to_nat k) table).

(** *** base64url (RFC 4648, section 5, without padding) *)

Definition b64url_alphabet : string :=
  "ABCDEFGHIJKLMNOPQRSTUVWXYZabcdefghijklmnopqrstuvwxyz0123456789-_".

Definition b64url_char (sextet : N) : ascii := char_at b64url_alphabet sextet.
Definition b64url_index (c : ascii) : option N := index_of c b64url_alphabet.

Definition byte (c : ascii) : N := N_of_ascii c.

(** Three bytes make four characters; a tail of one or two bytes makes two
    or three. *)
Fixpoint b64url_encode (s : string) : string :=
  match s with
  | "" => ""
  | String a "" =>
      let n := byte a * 16 in
      String (b64url_char (n / 64)) (String (b64url_char (n mod 64)) "")
  | String a (String b "") =>
      let n := (byte a * 256 + byte b) * 4 in
      String (b64url_char (n / 4096))
        (String (b64url_char (n / 64 mod 64))
           (String (b64url_char (n mod 64)) ""))
  | String a (String b (String c rest)) =>
      let n := byte a * 65536 + byte b * 256 + byte c in
      String (b64url_char (n / 262144))
        (String (b64url_char (n / 4096 mod 64))
           (String (b64url_char (n / 64 mod 64))
              (String (b64url_char (n mod 64)) (b64url_encode rest))))
  end.

Fixpoint b64url_decode (s : string) : option string :=
  match s with
  | "" => Some ""
  | String _ "" => None
  | String c1 (String c2 "") =>
      i1 ← b64url_index c1; i2 ← b64url_index c2;
      let n := i1 * 64 + i2 in
      Some (String (ascii_of_N (n / 16)) "")
  | String c1 (String c2 (String c3 "")) =>
      i1 ← b64url_index c1; i2 ← b64url_index c2; i3 ← b64url_index c3;
      let n := (i1 * 64 + i2) * 64 + i3 in
      Some (String (ascii_of_N (n / 1024))
              (String (ascii_of_N (n / 4 mod 256)) ""))
  | String c1 (String c2 (String c3 (String c4 rest))) =>
      i1 ← b64url_index c1; i2 ← b64url_index c2;
      i3 ← b64url_index c3; i4 ← b64url_index c4;
      let n := ((i1 * 64 + i2) * 64 + i3) * 64 + i4 in
      tail ← b64url_decode rest;
      Some (String (ascii_of_N (n / 65536))
              (String (ascii_of_N (n / 256 mod 256))
                 (String (ascii_of_N (n mod 256)) tail)))
  end.

(** *** JSON string literals *)

Definition hex_digits : string := "0123456789abcdef".

Definition hex_value (c : ascii) : option N :=
  match index_of c hex_digits with
  | Some v => Some v
  | None => N.add 10 <$> index_of c "ABCDEF"
  end.

(** How [JSON.stringify] writes one character of a string. *)
Definition json_escape_char (c : ascii) : string :=
  if Ascii.eqb c dquote then String backslash (String dquote "")
  else if Ascii.eqb c backslash then String backslash (String backslash "")
  else if Ascii.eqb c "008" then String backslash "b"
  else if Ascii.eqb c "012" then String backslash "f"
  else if Ascii.eqb c "010" then String backslash "n"
  else if Ascii.eqb c "013" then String backslash "r"
  else if Ascii.eqb c "009" then String backslash "t"
  else if byte c <? 32 then
    String backslash
      (String "u" (String "0" (String "0"
         (String (char_at hex_digits (byte c / 16))
            (String (char_at hex_digits (byte c mod 16)) "")))))
  else String c "".

Fixpoint json_escape (s : string) : string :=
  match s with
  | "" => ""
  | String c rest => json_escape_char c +:+ json_escape rest
  end.

Definition json_quote (s : string) : string :=
  String dquote (json_escape s +:+ String dquote "").

(** The character a two-character escape stands for. *)
Definition json_simple_escape (e : ascii) : option ascii :=
  if Ascii.eqb e dquote then Some dquote
  else if Ascii.eqb e backslash then Some backslash
  else if Ascii.eqb e "/" then Some "/"%char
  else if Ascii.eqb e "b" then Some "008"%char
  else if Ascii.eqb e "f" then Some "012"%char
  else if Ascii.eqb e "n" then Some "010"%char
  else if Ascii.eqb e "r" then Some "013"%char
  else if Ascii.eqb e "t" then Some "009"%char
  else None.

(** The character of [\uXXXX], for code points that fit a byte. *)
Definition json_unicode_escape (h1 h2 h3 h4 : ascii) : option ascii :=
  v1 ← hex_value h1; v2 ← hex_value h2; v3 ← hex_value h3; v4 ← hex_value h4;
  if (v1 =? 0) && (v2 =? 0) then Some (ascii_of_N (v3 * 16 + v4)) else None.

Definition cons_fst (c : ascii) (r : string * string) : string * string :=
  (String c r.1, r.2).

(** Reads a string literal whose opening quote has been consumed: the text
    it denotes, and what follows its closing quote. *)
Fixpoint json_unquote (s : string) : option (string * string) :=
  match s with
  | "" => None
  | String c rest =>
      if Ascii.eqb c dquote then Some ("", rest)
      else if Ascii.eqb c backslash then
        match rest with
        | "" => None
        | String e rest' =>
            if Ascii.eqb e "u" then
              match rest' with
              | String h1 (String h2 (String h3 (String h4 rest''))) =>
                  ch ← json_unicode_escape h1 h2 h3 h4;
                  cons_fst ch <$> json_unquote rest''
              | _ => None
              end
            else
              ch ← json_simple_escape e;
              cons_fst ch <$> json_unquote rest'
        end
      else if byte c <? 32 then None
      else cons_fst c <$> json_unquote rest
  end.

(** [expect lit s]: [s] without its prefix [lit], if it starts with it. *)
Fixpoint expect (lit s : string) : option string :=
  match lit, s with
  | "", _ => Some s
  | String a lit', String b s' => if Ascii.eqb a b then expect lit' s' else None
  | String _ _, "" => None
  end.

(** [split_on sep s]: the pieces of [s] between occurrences of [sep]. *)
Fixpoint split_on (sep : ascii) (s : string) : list string :=
  match s with
  | "" => [""]
  | String c rest =>
      if Ascii.eqb c sep then "" :: split_on sep rest
      else match split_on sep rest with
           | piece :: pieces => String c piece :: pieces
           | [] => [String c ""]
           end
  end.

(* ===================================================================== *)
(** ** Token issuer and verifier *)
(* ===================================================================== *)

(** Modelled from the spec: the token library is not part of the sources;
    the spec has the token encode [{subjectId, email}].  The payload as
    JSON text: an object with the members [id] (the identifier in
    hexadecimal) and [email]. *)
Definition json_of_claims (c : Claims.t) : string :=
  "{" +:+ json_quote "id" +:+ ":" +:+ json_quote (toHexString (Claims.id c))
      +:+ "," +:+ json_quote "email" +:+ ":" +:+ json_quote (Claims.email c)
      +:+ "}".

(** Modelled from the spec: the token library is not part of the sources;
    the verifier decodes the payload.  Reads the JSON text of a payload
    back. *)
Definition claims_of_json (s : string) : option Claims.t :=
  s ← expect ("{" +:+ json_quote "id" +:+ ":" +:+ String dquote "") s;
  '(hex, s) ← json_unquote s;
  s ← expect ("," +:+ json_quote "email" +:+ ":" +:+ String dquote "") s;
  '(email, s) ← json_unquote s;
  if String.eqb s "}"
  then oid ← ofHexString hex; Some {| Claims.id := oid; Claims.email := email |}
  else None.

(** Modelled from the spec: the token library is not part of the sources;
    the spec asks for a standard MAC-based signature scheme.  The protected
    header of an HS256 token. *)
Definition jwt_header : string :=
  "{" +:+ json_quote "alg" +:+ ":" +:+ json_quote "HS256"
      +:+ "," +:+ json_quote "typ" +:+ ":" +:+ json_quote "JWT" +:+ "}".

Section Tokens.
Context `{Platform}.

(** Modelled from the spec: jsonwebtoken is not part of the sources; the
    spec has [jwt.sign(payload, secret)] encode the payload
    [{subjectId, email}] together with a signature over it under the secret
    key.  The token is the compact form: header, payload and signature in
    base64url, joined by dots. *)
Definition jwt_sign (payload : Claims.t) (secret : string) : string :=
  let signing_input :=
    b64url_encode jwt_header +:+ "." +:+ b64url_encode (json_of_claims payload) in
  signing_input +:+ "." +:+ b64url_encode (hmac secret signing_input).

(** Modelled from the spec: jsonwebtoken is not part of the sources; the
    spec has [jwt.verify(token, secret)] recompute the signature over
    header and payload and decode the payload, and fail on a token that is
    malformed or whose signature does not match.  [None] is that
    failure. *)
Definition jwt_verify (token : string) (secret : string) : option Claims.t :=
  match split_on "." token with
  | [header; payload; signature] =>
      if String.eqb header (b64url_encode jwt_header)
         && String.eqb signature
              (b64url_encode (hmac secret (header +:+ "." +:+ payload)))
      then b64url_decode payload ≫= claims_of_json
      else None
  | _ => None
  end.

(** Modelled from the spec: middleware/auth.js is not part of the sources;
    the spec takes the credential from the authorization header, scheme
    [Bearer]. *)
Definition bearer_token (authorization : option string) : option string :=
  authorization ≫= expect "Bearer ".

(** Modelled from the spec: middleware/auth.js is not part of the sources;
    the spec has the middleware take the bearer credential from the
    authorization header, verify it, and either attach the decoded identity
    to the request and run the downstream handler [next], or answer with an
    authentication failure (401) without running it. *)
Definition auth (authorization : option string)
    (next : Claims.t → Async Response) : Async Response :=
  match bearer_token authorization with
  | None => mret (res_status_json 401 Unauthenticated)
  | Some token =>
      match jwt_verify token JWT_SECRET with
      | None => mret (res_status_json 401 Unauthenticated)
      | Some user => next user
      end
  end.

End Tokens.

(* ===================================================================== *)
(** ** Request handlers *)
(* ===================================================================== *)

(** [req.body] of register and login: an email string, and a password; a
    password missing from the body is [None]. *)
Record Credentials := mkCredentials {
  body_email : string;
  body_password : option string
}.

(** [req.body] of tournament creation; either member may be missing. *)
Record TournamentFields := mkTournamentFields {
  body_name : option string;
  body_description : option string
}.

Section Handlers.
Context `{Platform}.

(** The [catch] clause shared by the handlers. *)
Definition server_error (err : Exn) : Async Response :=
  mret (res_status_json 500 (ServerError "Server error" err)).

(** POST /api/register.  [salt] is the salt bcrypt draws for this call. *)
Definition register (salt : string) (req_body : Credentials) : Async Response :=
  try_catch
    (existing ← User_findOne (body_email req_body);
     if existing is Some _
     then mret (res_status_json 400 (Message "User exists"))
     else
       hashed ← bcrypt_hash_async salt (body_password req_body) 10;
       user ← new_User (body_email req_body) hashed;
       _ ← User_save user;
       mret (res_json (Message "Registered")))
    server_error.

(** POST /api/login. *)
Definition login (req_body : Credentials) : Async Response :=
  try_catch
    (user ← User_findOne (body_email req_body);
     match user with
     | None => mret (res_status_json 400 (Message "Invalid credentials"))
     | Some u =>
         matches ← bcrypt_compare_async (body_password req_body) (User.password u);
         if negb matches
         then mret (res_status_json 400 (Message "Invalid credentials"))
         else
           let token :=
             jwt_sign {| Claims.id := User._id u; Claims.email := User.email u |}
                      JWT_SECRET in
           mret (res_json (Token token))
     end)
    server_error.

(** POST /api/tournaments, behind [auth]: [req_user] is [req.user]. *)
Definition createTournament (req_user : Claims.t) (req_body : TournamentFields)
    : Async Response :=
  try_catch
    (tournament ← new_Tournament (body_name req_body) (body_description req_body)
                     (Claims.id req_user) [Claims.id req_user];
     _ ← Tournament_save tournament;
     mret (res_json (Document tournament)))
    server_error.

(** POST /api/tournaments/:id/join, behind [auth]: [id] is
    [req.params.id]. *)
Definition joinTournament (req_user : Claims.t) (id : string) : Async Response :=
  try_catch
    (found ← Tournament_findById id;
     match found with
     | None => mret (res_status_json 404 (Message "Not found"))
     | Some tournament =>
         tournament ←
           (if negb (includes (Tournament.participants tournament) (Claims.id req_user))
            then
              let tournament := push tournament (Claims.id req_user) in
              _ ← Tournament_save tournament;
              mret tournament
            else mret tournament);
         mret (res_json (Document tournament))
     end)
    server_error.

(** Running a handler to its response.  A rejection that leaves a handler
    reaches the fallback error handler. *)
Definition respond (h : Async Response) (s : Store) : Response * Store :=
  match h s with
  | (inr res, s') => (res, s')
  | (inl err, s') =>
      (res_status_json 500 (ServerError "Internal Server Error" err), s')
  end.

(** The handler calls the server makes: a register or a login, or a
    protected operation on behalf of the identity [auth] attached to the
    request.  The routes that only read, and the newsletter routes, touch
    neither users nor tournaments and are left out. *)
Inductive Call :=
| Register (salt : string) (req_body : Credentials)
| Login (req_body : Credentials)
| CreateTournament (req_user : Claims.t) (req_body : TournamentFields)
| JoinTournament (req_user : Claims.t) (id : string).

Definition handler (c : Call) : Async Response :=
  match c with
  | Register salt b => register salt b
  | Login b => login b
  | CreateTournament user b => createTournament user b
  | JoinTournament user id => joinTournament user id
  end.

Definition run (c : Call) (s : Store) : Response * Store :=
  respond (handler c) s.

(** The store after a sequence of calls. *)
Definition run_all (cs : list Call) (s : Store) : Store :=
  foldl (λ s c, (run c s).2) s cs.

(** The stores the server can be in: those it reaches from the empty store
    by running handlers. *)
Inductive reachable : Store → Prop :=
| reachable_empty : reachable empty_store
| reachable_run s c : reachable s → reachable (run c s).2.

(** The requests as they arrive, the protected ones with their
    authorization header, and their routes through [auth]. *)
Inductive Request :=
| POST_register (salt : string) (req_body : Credentials)
| POST_login (req_body : Credentials)
| POST_tournaments (authorization : option string) (req_body : TournamentFields)
| POST_tournaments_join (authorization : option string) (id : string).

Definition route (r : Request) : Async Response :=
  match r with
  | POST_register salt b => register salt b
  | POST_login b => login b
  | POST_tournaments a b => auth a (λ user, createTournament user b)
  | POST_tournaments_join a id => auth a (λ user, joinTournament user id)
  end.

Definition serve (r : Request) (s : Store) : Response * Store :=
  respond (route r) s.

(** [n] join requests by the same caller for the same tournament, one after
    the other: the responses in order, and the final store. *)
Fixpoint join_repeatedly (n : nat) (req_user : Claims.t) (id : string)
    (s : Store) : list Response * Store :=
  match n with
  | O => ([], s)
  | S n' =>
      let '(res, s') := respond (joinTournament req_user id) s in
      let '(rest, s'') := join_repeatedly n' req_user id s' in
      (res :: rest, s'')
  end.

End Handlers.

(** Number of stored users with a given email. *)
Definition count_email (email : string) (s : Store) : nat :=
  length (filter (λ u, User.email u = email) (users s)).

(** Number of occurrences of an identifier in a participant sequence. *)
Definition occurrences (id : ObjectId) (participants : list ObjectId) : nat :=
  length (filter (λ x, x = id) participants).

(** The data-model invariants of the store. *)
Record store_ok (s : Store) : Prop := {
  ok_key : ∀ k t, tournaments s !! k = Some t → Tournament._id t = k;
  ok_fresh : ∀ k t, tournaments s !! k = Some t → k < next_id s;
  ok_nodup : ∀ k t, tournaments s !! k = Some t → NoDup (Tournament.participants t);
  ok_owner : ∀ k t, tournaments s !! k = Some t →
             Tournament.createdBy t ∈ Tournament.participants t;
  ok_emails : NoDup (User.email <$> users s)
}.

(** How a single request can change the store. *)
Inductive store_step (s : Store) : Store → Prop :=
| step_none : store_step s s
| step_user u :
    User._id u = next_id s →
    find (has_email (User.email u)) (users s) = None →
    store_step s {| users := users s ++ [u]; tournaments := tournaments s;
                    next_id := N.succ (next_id s) |}
| step_create t :
    Tournament._id t = next_id s →
    Tournament.participants t = [Tournament.createdBy t] →
    store_step s {| users := users s;
                    tournaments := <[next_id s := t]> (tournaments s);
                    next_id := N.succ (next_id s) |}
| step_join oid t c :
    tournaments s !! oid = Some t →
    c ∉ Tournament.participants t →
    store_step s {| users := users s;
                    tournaments := <[Tournament._id t := push t c]> (tournaments s);
                    next_id := next_id s |}.

(** Whether a character occurs in a string. *)
Fixpoint occurs (c : ascii) (s : string) : bool :=
  match s with
  | "" => false
  | String d rest => Ascii.eqb d c || occurs c rest
  end.

(** The authorization headers [auth] has to refuse: no header, a header
    that is no bearer credential, a token that is not three dot-separated
    parts, a token whose signature is not the one the secret gives for its
    header and payload, and any token the verifier fails on. *)
Inductive refused `{Platform} : option string → Prop :=
| refused_missing : refused None
| refused_scheme h : expect "Bearer " h = None → refused (Some h)
| refused_malformed token :
    length (split_on "." token) ≠ 3%nat →
    refused (Some ("Bearer " +:+ token))
| refused_signature header payload signature :
    occurs "." header = false →
    occurs "." payload = false →
    occurs "." signature = false →
    signature ≠ b64url_encode (hmac JWT_SECRET (header +:+ "." +:+ payload)) →
    refused (Some ("Bearer " +:+ header +:+ "." +:+ payload +:+ "." +:+ signature))
| refused_verify token :
    jwt_verify token JWT_SECRET = None →
    refused (Some ("Bearer " +:+ token)).

(* ===================================================================== *)
(** ** A platform to run the handlers on *)
(* ===================================================================== *)

(** Stand-ins for the libraries, with deterministic secrets, on which the
    handlers can be evaluated. *)
Definition test_castObjectId (s : string) : option ObjectId :=
  if (String.length s =? 24)%nat then ofHexString s else None.

Definition test_hash (rounds : N) (salt s : string) : string :=
  salt +:+ ":" +:+ s.

Definition test_compare (s digest : string) : bool :=
  match split_on ":" digest with
  | [_; hashed] => String.eqb s hashed
  | _ => false
  end.

Definition test_platform : Platform := {|
  castObjectId := test_castObjectId;
  bcrypt_hash := test_hash;
  bcrypt_compare := test_compare;
  hmac := λ key message, key +:+ "/" +:+ message;
  JWT_SECRET := "test-secret"
|}.

Definition alice : Claims.t := {| Claims.id := 0; Claims.email := "a@x.com" |}.
Definition bob : Claims.t := {| Claims.id := 7; Claims.email := "b@x.com" |}.

Definition alice_credentials : Credentials :=
  {| body_email := "a@x.com"; body_password := Some "pw1" |}.

Definition alice_token : string := @jwt_sign test_platform alice "test-secret".

Definition cup : TournamentFields :=
  {| body_name := Some "Cup"; body_description := Some "desc" |}.

(** The scenario of the spec up to the creation of the tournament: Alice
    registers and creates a tournament. *)
Definition scenario : list Call :=
  [ Register "salt" alice_credentials; CreateTournament alice cup ].

Definition scenario_store : Store := @run_all test_platform scenario empty_store.

(** The identifier the tournament of the scenario gets, as a route
    parameter. *)
Definition cup_id : string := toHexString 1.

(** The documents the scenario stores. *)
Definition alice_user : User.t :=
  {| User._id := 0; User.email := "a@x.com"; User.password := "salt:pw1" |}.

Definition cup_document : Tournament.t :=
  {| Tournament._id := 1; Tournament.name := Some "Cup";
     Tournament.description := Some "desc";
     Tournament.createdBy := 0; Tournament.participants := [0] |}.

(** A token put together from the header, a payload naming Bob, and the
    signature of Alice's token. *)
Definition forged_payload : string := b64url_encode (json_of_claims bob).

Definition stolen_signature : string :=
  b64url_encode
    (@hmac test_platform "test-secret"
       (b64url_encode jwt_header +:+ "." +:+ b64url_encode (json_of_claims alice))).

Definition forged_authorization : option string :=
  Some ("Bearer " +:+ b64url_encode jwt_header +:+ "." +:+ forged_payload
          +:+ "." +:+ stolen_signature).

(* ===================================================================== *)
(** ** The first version of the handlers *)
(* ===================================================================== *)

(** The server file holds an earlier version of the four handlers, written
    without [try]/[catch]: an exception thrown on the way leaves the
    handler as a rejected promise. *)
Section FirstVersion.
Context `{Platform}.






End FirstVersion.


(* ===================================================================== *)
(** ** Sequences of joins *)
(* ===================================================================== *)

(** What one join does to a participant sequence. *)
Definition add_participant (participants : list ObjectId) (id : ObjectId)
    : list ObjectId :=
  if includes participants id then participants else participants ++ [id].

(** The join calls of a sequence of callers for one tournament. *)
Definition joins (callers : list Claims.t) (id : string) : list Call :=
  (λ caller, JoinTournament caller id) <$> callers.

(* ===================================================================== *)
(** ** Newsletter subscription *)
(* ===================================================================== *)

Module Newsletter.

(** What [subscriber.save()] can reject with. *)
Inductive Failure :=
| ValidationError (message : string)   (* err.name === 'ValidationError' *)
| DuplicateKeyError.                    (* err.code === 11000 *)

(** The JSON answer of the route: [{ message }] or [{ message, error }]. *)
Record Reply := mkReply {
  code : N;
  message : string;
  error : option Failure
}.

Section Subscribe.

(** Modelled from the spec: models/subscriber.js is not part of the
    sources.  [validate email] is the validation the schema runs on save:
    [Some message] when it fails. *)
Variable validate : string → option string.

(** Modelled from the spec: models/subscriber.js is not part of the
    sources; the spec keeps subscriber emails under a unique index.  The
    collection is the sequence of stored emails; [Subscriber.findOne] looks
    an email up, [subscriber.save()] validates and inserts. *)
Definition findOne (email : string) (subscribers : list string) : bool :=
  bool_decide (email ∈ subscribers).

Definition save (email : string) (subscribers : list string)
    : Failure + list string :=
  match validate email with
  | Some msg => inl (ValidationError msg)
  | None =>
      if findOne email subscribers then inl DuplicateKeyError
      else inr (subscribers ++ [email])%list
  end.

(** [!email] for a body member that is a string or missing. *)
Definition falsy (email : option string) : bool :=
  match email with
  | None => true
  | Some e => String.eqb e ""
  end.

(** The email of the body, once [!email] has been ruled out. *)
Definition the_email (email : option string) : string := default "" email.

(** POST /api/subscribe. *)
Definition subscribe (email : option string) (subscribers : list string)
    : Reply * list string :=
  if falsy email
  then ({| code := 400; message := "Email is required"; error := None |},
        subscribers)
  else if findOne (the_email email) subscribers
  then ({| code := 400; message := "Email already subscribed"; error := None |},
        subscribers)
  else
    match save (the_email email) subscribers with
    | inr subscribers' =>
        ({| code := 201; message := "Subscribed successfully!"; error := None |},
         subscribers')
    | inl err =>
        ({| code := 500; message := "Subscription failed. Please try again.";
            error := Some err |}, subscribers)
    end.


(** The subscribers after a sequence of requests. *)
Definition subscribe_all (emails : list (option string))
    (subscribers : list string) : list string :=
  foldl (λ subs email, (subscribe email subs).2) subscribers emails.

End Subscribe.

(** A schema that accepts the emails with an at sign. *)
Definition needs_at (email : string) : option string :=
  if occurs "@" email then None else Some "Please enter a valid email".

End Newsletter.

(* ===================================================================== *)
(** * Properties *)
(* ===================================================================== *)

Ltac async :=
  unfold mbind, mret, Async_bind, Async_ret, await, resolve, throw,
    get_store, put_store, try_catch, server_error in *.

Section Outcomes.
Context {platform : Platform}.

(** ** The four outcomes of a join *)

Lemma join_cast_error u id s :
  castObjectId id = None →
  joinTournament u id s
  = (inr (res_status_json 500 (ServerError "Server error" (CastError id))), s).
Proof.
  intros Hcast. unfold joinTournament, Tournament_findById.
  rewrite Hcast. reflexivity.
Qed.

Lemma join_not_found u id oid s :
  castObjectId id = Some oid →
  tournaments s !! oid = None →
  joinTournament u id s = (inr (res_status_json 404 (Message "Not found")), s).
Proof.
  intros Hcast Hnone. unfold joinTournament, Tournament_findById.
  rewrite Hcast. async. rewrite Hnone. reflexivity.
Qed.

Lemma join_member u id oid t s :
  castObjectId id = Some oid →
  tournaments s !! oid = Some t →
  Claims.id u ∈ Tournament.participants t →
  joinTournament u id s = (inr (res_json (Document t)), s).
Proof.
  intros Hcast Hsome Hin. unfold joinTournament, Tournament_findById.
  rewrite Hcast. async. rewrite Hsome.
  unfold includes. rewrite bool_decide_eq_true_2 by done. reflexivity.
Qed.

Lemma join_non_member u id oid t s :
  castObjectId id = Some oid →
  tournaments s !! oid = Some t →
  Claims.id u ∉ Tournament.participants t →
  joinTournament u id s
  = (inr (res_json (Document (push t (Claims.id u)))),
     {| users := users s;
        tournaments := <[Tournament._id t := push t (Claims.id u)]> (tournaments s);
        next_id := next_id s |}).
Proof.
  intros Hcast Hsome Hin. unfold joinTournament, Tournament_findById.
  rewrite Hcast. async. rewrite Hsome.
  unfold includes. rewrite bool_decide_eq_false_2 by done. reflexivity.
Qed.

Lemma create_runs u b s :
  createTournament u b s
  = let t := {| Tournament._id := next_id s;
                Tournament.name := body_name b;
                Tournament.description := body_description b;
                Tournament.createdBy := Claims.id u;
                Tournament.participants := [Claims.id u] |} in
    (inr (res_json (Document t)),
     {| users := users s;
        tournaments := <[next_id s := t]> (tournaments s);
        next_id := N.succ (next_id s) |}).
Proof. reflexivity. Qed.

(** ** Register and login, case by case *)

Lemma find_none_existsb {A} (f : A → bool) (l : list A) :
  find f l = None → existsb f l = false.
Proof.
  induction l as [|a l IH]; simpl; [done|].
  destruct (f a); [discriminate|exact IH].
Qed.

Lemma register_exists salt b u s :
  find (has_email (body_email b)) (users s) = Some u →
  register salt b s = (inr (res_status_json 400 (Message "User exists")), s).
Proof. intros Hfind. unfold register, User_findOne. async. rewrite Hfind. reflexivity. Qed.

Lemma register_no_password salt e s :
  find (has_email e) (users s) = None →
  register salt {| body_email := e; body_password := None |} s
  = (inr (res_status_json 500 (ServerError "Server error" IllegalArguments)), s).
Proof. intros Hfind. unfold register, User_findOne. async. simpl. rewrite Hfind. reflexivity. Qed.

Lemma register_new salt e p s :
  find (has_email e) (users s) = None →
  register salt {| body_email := e; body_password := Some p |} s
  = (inr (res_json (Message "Registered")),
     {| users := users s ++ [ {| User._id := next_id s; User.email := e;
                                 User.password := bcrypt_hash 10 salt p |} ];
        tournaments := tournaments s;
        next_id := N.succ (next_id s) |}).
Proof.
  intros Hfind. unfold register, User_findOne, User_save, new_User, fresh_id,
    bcrypt_hash_async. async. simpl.
  rewrite Hfind. rewrite (find_none_existsb _ _ Hfind). reflexivity.
Qed.

Lemma login_unknown b s :
  find (has_email (body_email b)) (users s) = None →
  login b s = (inr (res_status_json 400 (Message "Invalid credentials")), s).
Proof. intros Hfind. unfold login, User_findOne. async. rewrite Hfind. reflexivity. Qed.

Lemma login_no_password e u s :
  find (has_email e) (users s) = Some u →
  login {| body_email := e; body_password := None |} s
  = (inr (res_status_json 500 (ServerError "Server error" IllegalArguments)), s).
Proof. intros Hfind. unfold login, User_findOne. async. simpl. rewrite Hfind. reflexivity. Qed.

Lemma login_wrong_password e p u s :
  find (has_email e) (users s) = Some u →
  bcrypt_compare p (User.password u) = false →
  login {| body_email := e; body_password := Some p |} s
  = (inr (res_status_json 400 (Message "Invalid credentials")), s).
Proof.
  intros Hfind Hcmp. unfold login, User_findOne, bcrypt_compare_async. async.
  simpl. rewrite Hfind, Hcmp. reflexivity.
Qed.

Lemma login_right_password e p u s :
  find (has_email e) (users s) = Some u →
  bcrypt_compare p (User.password u) = true →
  login {| body_email := e; body_password := Some p |} s
  = (inr (res_json (Token (jwt_sign
        {| Claims.id := User._id u; Claims.email := User.email u |} JWT_SECRET))), s).
Proof.
  intros Hfind Hcmp. unfold login, User_findOne, bcrypt_compare_async. async.
  simpl. rewrite Hfind, Hcmp. reflexivity.
Qed.

(** ** Requests as store steps *)

Lemma respond_fulfilled (h : Async Response) s res s' :
  h s = (inr res, s') → respond h s = (res, s').
Proof. intros Hrun. unfold respond. rewrite Hrun. reflexivity. Qed.

Lemma auth_cases authorization (next : Claims.t → Async Response) s :
  auth authorization next s = (inr (res_status_json 401 Unauthenticated), s)
  ∨ ∃ user, auth authorization next s = next user s.
Proof.
  unfold auth. destruct (bearer_token authorization) as [token|]; [|by left].
  destruct (jwt_verify token JWT_SECRET) as [user|]; [right; eauto|by left].
Qed.

Lemma join_step u id s :
  ∃ res s', joinTournament u id s = (inr res, s') ∧ store_step s s'.
Proof.
  destruct (castObjectId id) as [oid|] eqn:Hcast.
  - destruct (tournaments s !! oid) as [t|] eqn:Hlook.
    + destruct (decide (Claims.id u ∈ Tournament.participants t)) as [Hin|Hout].
      * rewrite (join_member _ _ _ _ _ Hcast Hlook Hin).
        eexists _, _. split; [reflexivity|constructor].
      * rewrite (join_non_member _ _ _ _ _ Hcast Hlook Hout).
        eexists _, _. split; [reflexivity|]. by eapply step_join.
    + rewrite (join_not_found _ _ _ _ Hcast Hlook).
      eexists _, _. split; [reflexivity|constructor].
  - rewrite (join_cast_error _ _ _ Hcast).
    eexists _, _. split; [reflexivity|constructor].
Qed.

Lemma register_step salt b s :
  ∃ res s', register salt b s = (inr res, s') ∧ store_step s s'.
Proof.
  destruct b as [e p].
  destruct (find (has_email e) (users s)) as [u|] eqn:Hfind.
  - rewrite (register_exists _ _ u) by done.
    eexists _, _. split; [reflexivity|constructor].
  - destruct p as [p|].
    + rewrite register_new by done.
      eexists _, _. split; [reflexivity|]. by apply step_user.
    + rewrite register_no_password by done.
      eexists _, _. split; [reflexivity|constructor].
Qed.

Lemma login_step b s : ∃ res, login b s = (inr res, s).
Proof.
  destruct b as [e p].
  destruct (find (has_email e) (users s)) as [u|] eqn:Hfind.
  - destruct p as [p|].
    + destruct (bcrypt_compare p (User.password u)) eqn:Hcmp.
      * rewrite (login_right_password _ _ u) by done. eauto.
      * rewrite (login_wrong_password _ _ u) by done. eauto.
    + rewrite (login_no_password _ u) by done. eauto.
  - rewrite login_unknown by done. eauto.
Qed.

(** Every handler answers: no rejection leaves it, and the store moves by
    one [store_step]. *)
Lemma handler_step c s :
  ∃ res s', handler c s = (inr res, s') ∧ store_step s s'.
Proof.
  destruct c as [salt b|b|u b|u id]; simpl.
  - apply register_step.
  - destruct (login_step b s) as [res Hres]. rewrite Hres.
    eexists _, _. split; [reflexivity|constructor].
  - rewrite create_runs. eexists _, _. split; [reflexivity|].
    by apply step_create.
  - apply join_step.
Qed.

Lemma run_step c s : store_step s (run c s).2.
Proof.
  unfold run. destruct (handler_step c s) as (res & s' & Hrun & Hstep).
  rewrite (respond_fulfilled _ _ _ _ Hrun). exact Hstep.
Qed.

(** A request is either turned away by [auth], with the store as it was,
    or it is one handler call. *)
Lemma serve_cases r s :
  serve r s = (res_status_json 401 Unauthenticated, s)
  ∨ ∃ c, serve r s = run c s.
Proof.
  unfold serve, run. destruct r as [salt b|b|a b|a id]; simpl.
  - right. by exists (Register salt b).
  - right. by exists (Login b).
  - destruct (auth_cases a (λ user, createTournament user b) s) as [Hno|[u Hyes]].
    + left. unfold respond. by rewrite Hno.
    + right. exists (CreateTournament u b). unfold respond. by rewrite Hyes.
  - destruct (auth_cases a (λ user, joinTournament user id) s) as [Hno|[u Hyes]].
    + left. unfold respond. by rewrite Hno.
    + right. exists (JoinTournament u id). unfold respond. by rewrite Hyes.
Qed.

(** ** The invariants hold in every reachable store *)

Lemma find_none_not_elem e (l : list User.t) :
  find (has_email e) l = None → e ∉ User.email <$> l.
Proof.
  induction l as [|u l IH]; simpl; intros Hfind.
  - apply not_elem_of_nil.
  - unfold has_email in Hfind at 1.
    destruct (String.eqb_spec (User.email u) e) as [Heq|Hne]; [discriminate|].
    rewrite not_elem_of_cons. split; [congruence|by apply IH].
Qed.

Lemma store_ok_empty : store_ok empty_store.
Proof.
  split; simpl; try (intros k t Hk; by rewrite lookup_empty in Hk).
  apply NoDup_nil_2.
Qed.

Lemma store_ok_step s s' : store_ok s → store_step s s' → store_ok s'.
Proof.
  intros [Hkey Hfresh Hnodup Howner Hemails] Hstep.
  destruct Hstep as [|u Hid Hfind|t Hid Hps|oid t c Hlook Hout]; [done|..].
  - split; simpl; eauto.
    + intros k t Hk. specialize (Hfresh k t Hk). lia.
    + rewrite fmap_app. simpl. apply NoDup_app. split; [done|]. split.
      * intros x Hx Hx'. apply list_elem_of_singleton in Hx'. subst x.
        by apply (find_none_not_elem _ _ Hfind).
      * apply NoDup_singleton.
  - split; simpl; [..|done]; intros k t' Hk;
      apply lookup_insert_Some in Hk as [[<- <-]|[Hne Hk]]; eauto.
    + lia.
    + specialize (Hfresh k t' Hk). lia.
    + rewrite Hps. apply NoDup_singleton.
    + rewrite Hps. apply list_elem_of_singleton. reflexivity.
  - pose proof (Hkey _ _ Hlook) as Hoid.
    split; simpl; [..|done]; intros k t' Hk;
      apply lookup_insert_Some in Hk as [[<- <-]|[Hne Hk]]; eauto.
    + rewrite Hoid. eauto.
    + simpl. apply NoDup_app. split; [eauto|]. split.
      * intros x Hx Hx'. apply list_elem_of_singleton in Hx'. by subst x.
      * apply NoDup_singleton.
    + simpl. apply elem_of_app. left. eauto.
Qed.

Lemma reachable_ok s : reachable s → store_ok s.
Proof.
  induction 1 as [|s c _ IH]; [apply store_ok_empty|].
  eapply store_ok_step; [exact IH|apply run_step].
Qed.

Lemma reachable_run_all cs s : reachable s → reachable (run_all cs s).
Proof.
  revert s. induction cs as [|c cs IH]; intros s Hs; [exact Hs|].
  apply IH. by constructor.
Qed.

(** Answering requests keeps the store reachable. *)
Lemma reachable_serve r s : reachable s → reachable (serve r s).2.
Proof.
  intros Hs. destruct (serve_cases r s) as [Hno|[c Hyes]].
  - by rewrite Hno.
  - rewrite Hyes. by constructor.
Qed.

End Outcomes.

(* ===================================================================== *)
(** ** Tournament membership *)
(* ===================================================================== *)

Lemma occurrences_absent (x : ObjectId) (l : list ObjectId) :
  x ∉ l → occurrences x l = 0%nat.
Proof.
  unfold occurrences. induction l as [|y l IH]; intros Hx; [reflexivity|].
  apply not_elem_of_cons in Hx as [Hne Hx].
  rewrite filter_cons, decide_False by congruence. by apply IH.
Qed.

Lemma occurrences_nodup (x : ObjectId) (l : list ObjectId) :
  NoDup l → x ∈ l → occurrences x l = 1%nat.
Proof.
  induction 1 as [|y l Hy Hl IH]; intros Hx.
  - by apply elem_of_nil in Hx.
  - apply elem_of_cons in Hx as [->|Hx].
    + pose proof (occurrences_absent _ _ Hy) as Hzero. unfold occurrences in *.
      rewrite filter_cons, decide_True by done. simpl. by rewrite Hzero.
    + specialize (IH Hx). unfold occurrences in *.
      rewrite filter_cons, decide_False; [exact IH|]. intros ->. done.
Qed.

Section Tournaments.
Context {platform : Platform}.

(** Once the caller is a participant, any number of joins answers with the
    stored document and leaves the store alone. *)
Lemma join_repeatedly_member n u id oid t s :
  castObjectId id = Some oid →
  tournaments s !! oid = Some t →
  Claims.id u ∈ Tournament.participants t →
  join_repeatedly n u id s = (replicate n (res_json (Document t)), s).
Proof.
  intros Hcast Hlook Hin. induction n as [|n IH]; [reflexivity|].
  simpl. rewrite (respond_fulfilled _ _ _ _ (join_member _ _ _ _ _ Hcast Hlook Hin)).
  rewrite IH. reflexivity.
Qed.

(** C1.  In every store the server can reach, for a tournament [t] stored
    under the identifier [id] and any caller, [n ≥ 1] joins in a row all
    answer 200 with one and the same document [t']; the store after the
    first join is the store after the last, and a further join changes
    nothing; the caller occurs exactly once among the participants of [t'];
    a caller who was no participant of [t] has been appended at the end,
    and for a caller who was one nothing has changed at all. *)
Theorem join_idempotent (caller : Claims.t) (id : string) (oid : ObjectId)
    (t : Tournament.t) (s : Store) (n : nat) :
  reachable s →
  castObjectId id = Some oid →
  tournaments s !! oid = Some t →
  (1 ≤ n)%nat →
  ∃ t' s',
    respond (joinTournament caller id) s = (res_json (Document t'), s')
    ∧ join_repeatedly n caller id s = (replicate n (res_json (Document t')), s')
    ∧ respond (joinTournament caller id) s' = (res_json (Document t'), s')
    ∧ tournaments s' !! oid = Some t'
    ∧ occurrences (Claims.id caller) (Tournament.participants t') = 1%nat
    ∧ (Claims.id caller ∉ Tournament.participants t →
       t' = push t (Claims.id caller)
       ∧ Tournament.participants t'
         = (Tournament.participants t ++ [Claims.id caller])%list)
    ∧ (Claims.id caller ∈ Tournament.participants t → t' = t ∧ s' = s).
Proof.
  intros Hreach Hcast Hlook Hn.
  pose proof (reachable_ok _ Hreach) as Hok.
  destruct n as [|n]; [lia|].
  destruct (decide (Claims.id caller ∈ Tournament.participants t)) as [Hin|Hout].
  - exists t, s.
    pose proof (respond_fulfilled _ _ _ _
                  (join_member _ _ _ _ _ Hcast Hlook Hin)) as Hone.
    repeat split; try done.
    + by apply (join_repeatedly_member _ _ _ oid).
    + apply occurrences_nodup; [|done]. by eapply ok_nodup.
  - pose proof (respond_fulfilled _ _ _ _
                  (join_non_member _ _ _ _ _ Hcast Hlook Hout)) as Hone.
    set (t' := push t (Claims.id caller)) in *.
    set (s' := {| users := users s;
                  tournaments := <[Tournament._id t := t']> (tournaments s);
                  next_id := next_id s |}) in *.
    assert (tournaments s' !! oid = Some t') as Hlook'.
    { simpl. rewrite (ok_key _ Hok _ _ Hlook). apply lookup_insert_eq. }
    assert (Claims.id caller ∈ Tournament.participants t') as Hin'.
    { simpl. apply elem_of_app. right. by apply list_elem_of_singleton. }
    pose proof (respond_fulfilled _ _ _ _
                  (join_member _ _ _ _ _ Hcast Hlook' Hin')) as Hagain.
    exists t', s'. repeat split; try done.
    + simpl. rewrite Hone.
      rewrite (join_repeatedly_member n _ _ oid t' s') by done. reflexivity.
    + apply occurrences_nodup; [|done]. simpl.
      apply NoDup_app. split; [by eapply ok_nodup|]. split.
      * intros x Hx Hx'. apply list_elem_of_singleton in Hx'. by subst x.
      * apply NoDup_singleton.
Qed.

(** A stored tournament stays stored under its identifier, with its owner,
    and loses no participant, whatever single step the store takes. *)
Lemma tournament_kept_step s s' k t :
  store_ok s → store_step s s' →
  tournaments s !! k = Some t →
  ∃ t', tournaments s' !! k = Some t'
        ∧ Tournament.createdBy t' = Tournament.createdBy t
        ∧ Tournament.participants t ⊆ Tournament.participants t'.
Proof.
  intros Hok Hstep Hk.
  destruct Hstep as [|u Hid Hfind|t0 Hid Hps|oid t0 c Hlook Hout]; simpl.
  - by exists t.
  - by exists t.
  - exists t. split; [|done].
    rewrite lookup_insert_ne; [done|].
    pose proof (ok_fresh _ Hok _ _ Hk). lia.
  - pose proof (ok_key _ Hok _ _ Hlook) as Hoid.
    destruct (decide (oid = k)) as [->|Hne].
    + assert (t0 = t) as -> by congruence.
      exists (push t c). rewrite Hoid, lookup_insert_eq.
      repeat split. simpl. by apply list_subseteq_app_l.
    + exists t. rewrite Hoid, lookup_insert_ne by done. done.
Qed.

Lemma tournament_kept cs s k t :
  store_ok s →
  tournaments s !! k = Some t →
  ∃ t', tournaments (run_all cs s) !! k = Some t'
        ∧ Tournament.createdBy t' = Tournament.createdBy t
        ∧ Tournament.participants t ⊆ Tournament.participants t'.
Proof.
  revert s t. induction cs as [|c cs IH]; intros s t Hok Hk.
  - by exists t.
  - simpl.
    destruct (tournament_kept_step _ _ _ _ Hok (run_step c s) Hk)
      as (t1 & Hk1 & Hby1 & Hps1).
    destruct (IH _ _ (store_ok_step _ _ Hok (run_step c s)) Hk1)
      as (t2 & Hk2 & Hby2 & Hps2).
    exists t2. split; [done|]. split; [congruence|]. by etrans.
Qed.

(** C2.  In every store the server can reach, creating a tournament
    answers with a document whose owner is the caller and whose
    participants are exactly the caller, once; the document is stored; and
    after any further handler calls (register, login, create, join, by
    anyone) the tournament is still stored under its identifier with the
    caller as owner and among its participants. *)
Theorem owner_is_participant (caller : Claims.t) (fields : TournamentFields)
    (s : Store) :
  reachable s →
  ∃ t s',
    respond (createTournament caller fields) s = (res_json (Document t), s')
    ∧ Tournament.createdBy t = Claims.id caller
    ∧ Tournament.participants t = [Claims.id caller]
    ∧ occurrences (Tournament.createdBy t) (Tournament.participants t) = 1%nat
    ∧ tournaments s' !! Tournament._id t = Some t
    ∧ ∀ later : list Call,
        ∃ t', tournaments (run_all later s') !! Tournament._id t = Some t'
              ∧ Tournament.createdBy t' = Claims.id caller
              ∧ Claims.id caller ∈ Tournament.participants t'.
Proof.
  intros Hreach. pose proof (reachable_ok _ Hreach) as Hok.
  eexists _, _. split.
  { apply respond_fulfilled. rewrite create_runs. reflexivity. }
  simpl. repeat split.
  - unfold occurrences. rewrite filter_cons, decide_True by done. reflexivity.
  - apply lookup_insert_eq.
  - intros later.
    match goal with |- context [run_all later ?s1] => set (s' := s1) end.
    assert (store_ok s') as Hok'.
    { eapply store_ok_step; [exact Hok|]. by apply step_create. }
    edestruct (tournament_kept later s' (next_id s)) as (t' & Hk & Hby & Hps);
      [exact Hok'|apply lookup_insert_eq|].
    exists t'. split; [done|]. split; [done|].
    apply Hps. simpl. by apply list_elem_of_singleton.
Qed.

(** C10.  Creation checks nothing about its input: whatever the caller and
    whichever of name and description the body carries, present, empty or
    missing, the handler answers 200 with a new document that carries them
    as given, and stores that document under a fresh identifier. *)
Theorem create_without_validation (caller : Claims.t)
    (name description : option string) (s : Store) :
  let t := {| Tournament._id := next_id s;
              Tournament.name := name;
              Tournament.description := description;
              Tournament.createdBy := Claims.id caller;
              Tournament.participants := [Claims.id caller] |} in
  let s' := {| users := users s;
               tournaments := <[next_id s := t]> (tournaments s);
               next_id := N.succ (next_id s) |} in
  respond (createTournament caller
             {| body_name := name; body_description := description |}) s
  = ({| status := 200; body := Document t |}, s')
  ∧ tournaments s' !! next_id s = Some t.
Proof.
  simpl. unfold respond. rewrite create_runs. simpl.
  split; [reflexivity|]. apply lookup_insert_eq.
Qed.

(** C7.  A join for an identifier under which no tournament is stored
    answers 404, [Not found], and the store is what it was. *)
Theorem join_unknown_tournament (caller : Claims.t) (id : string)
    (oid : ObjectId) (s : Store) :
  castObjectId id = Some oid →
  tournaments s !! oid = None →
  respond (joinTournament caller id) s
  = ({| status := 404; body := Message "Not found" |}, s).
Proof.
  intros Hcast Hnone. apply respond_fulfilled. by eapply join_not_found.
Qed.

(** C9.  A join whose route parameter is no identifier (the cast of
    [Tournament.findById] throws) answers with the handler's 500,
    [Server error], not with 404, and the store is what it was. *)
Theorem join_malformed_id (caller : Claims.t) (id : string) (s : Store) :
  castObjectId id = None →
  respond (joinTournament caller id) s
  = ({| status := 500; body := ServerError "Server error" (CastError id) |}, s)
  ∧ status (respond (joinTournament caller id) s).1 ≠ 404.
Proof.
  intros Hcast.
  rewrite (respond_fulfilled _ _ _ _ (join_cast_error _ _ _ Hcast)).
  split; [reflexivity|]. simpl. discriminate.
Qed.

End Tournaments.

(* ===================================================================== *)
(** ** Registration and login *)
(* ===================================================================== *)

Lemma count_email_absent e (l : list User.t) :
  e ∉ User.email <$> l → length (filter (λ u, User.email u = e) l) = 0%nat.
Proof.
  induction l as [|u l IH]; simpl; intros He; [reflexivity|].
  apply not_elem_of_cons in He as [Hne He].
  rewrite filter_cons, decide_False by congruence. by apply IH.
Qed.

Lemma count_email_found e u (l : list User.t) :
  NoDup (User.email <$> l) →
  find (has_email e) l = Some u →
  length (filter (λ u, User.email u = e) l) = 1%nat.
Proof.
  induction l as [|u0 l IH]; simpl; intros Hnodup Hfind; [discriminate|].
  apply NoDup_cons in Hnodup as [Hu0 Hnodup].
  unfold has_email in Hfind at 1.
  destruct (String.eqb_spec (User.email u0) e) as [Heq|Hne].
  - rewrite filter_cons, decide_True by done. simpl.
    rewrite count_email_absent; [reflexivity|]. by rewrite <- Heq.
  - rewrite filter_cons, decide_False by done. by apply IH.
Qed.

Lemma find_app_none {A} (f : A → bool) (l l' : list A) :
  find f l = None → find f (l ++ l') = find f l'.
Proof.
  induction l as [|a l IH]; simpl; [done|].
  destruct (f a); [discriminate|exact IH].
Qed.

Section Credentials.
Context {platform : Platform}.

(** C5.  In every store the server can reach, two registrations with the
    same email, one after the other, leave exactly one user with that
    email; the second is answered 400, [User exists], and writes nothing;
    and when no user had the email before, the first is answered 200,
    [Registered]. *)
Theorem register_twice (email p1 p2 salt1 salt2 : string) (s : Store) :
  reachable s →
  ∃ res1 s1,
    run (Register salt1
           {| body_email := email; body_password := Some p1 |}) s = (res1, s1)
    ∧ run (Register salt2
             {| body_email := email; body_password := Some p2 |}) s1
      = ({| status := 400; body := Message "User exists" |}, s1)
    ∧ count_email email s1 = 1%nat
    ∧ (count_email email s = 0%nat →
       res1 = {| status := 200; body := Message "Registered" |}).
Proof.
  intros Hreach. pose proof (reachable_ok _ Hreach) as Hok.
  unfold run, count_email. simpl.
  destruct (find (has_email email) (users s)) as [u|] eqn:Hfind.
  - pose proof (respond_fulfilled _ _ _ _
      (register_exists salt1 {| body_email := email; body_password := Some p1 |}
         u s Hfind)) as Hfirst.
    pose proof (respond_fulfilled _ _ _ _
      (register_exists salt2 {| body_email := email; body_password := Some p2 |}
         u s Hfind)) as Hsecond.
    pose proof (count_email_found _ _ _ (ok_emails _ Hok) Hfind) as Hone.
    eexists _, s. split; [exact Hfirst|]. split; [exact Hsecond|].
    split; [exact Hone|]. rewrite Hone. discriminate.
  - pose proof (respond_fulfilled _ _ _ _
      (register_new salt1 email p1 s Hfind)) as Hfirst.
    eexists _, _. split; [exact Hfirst|].
    set (new := {| User._id := next_id s; User.email := email;
                   User.password := bcrypt_hash 10 salt1 p1 |}).
    assert (find (has_email email) (users s ++ [new]) = Some new) as Hfind'.
    { rewrite find_app_none by done. simpl. unfold has_email. simpl.
      by rewrite String.eqb_refl. }
    split; [|split; [|done]].
    + apply respond_fulfilled. by eapply register_exists.
    + simpl. rewrite filter_app, length_app.
      rewrite count_email_absent by by apply find_none_not_elem.
      rewrite filter_cons, decide_True by done. reflexivity.
Qed.

(** When the body carries a password: a login with a known email and a
    password that does not match the stored hash is answered 400,
    [Invalid credentials]; a login with an email no user has is answered
    with the very same response; neither changes the store and neither
    response carries a token. *)
Lemma login_failure_uniform (known unknown wrong : string)
    (any : option string) (u : User.t) (s : Store) :
  find (has_email known) (users s) = Some u →
  bcrypt_compare wrong (User.password u) = false →
  find (has_email unknown) (users s) = None →
  let bad_password :=
    run (Login {| body_email := known; body_password := Some wrong |}) s in
  let bad_email :=
    run (Login {| body_email := unknown; body_password := any |}) s in
  bad_password = ({| status := 400; body := Message "Invalid credentials" |}, s)
  ∧ bad_email = bad_password
  ∧ ∀ token, body bad_password.1 ≠ Token token.
Proof.
  intros Hknown Hwrong Hunknown. unfold run. simpl.
  rewrite (respond_fulfilled _ _ _ _
             (login_wrong_password _ _ _ _ Hknown Hwrong)).
  rewrite (respond_fulfilled _ _ _ _
             (login_unknown {| body_email := unknown; body_password := any |}
                s Hunknown)).
  repeat split. intros token. simpl. discriminate.
Qed.

(** C6.  The failure of a login tells a stored email from an unknown one
    when the body carries no password: for a stored email [bcrypt.compare]
    throws and the answer is 500, [Server error]; for an unknown email the
    handler returns before the comparison and the answer is 400,
    [Invalid credentials].  Neither carries a token or changes the store. *)
Theorem login_failure_reveals_email (known unknown : string) (u : User.t)
    (s : Store) :
  find (has_email known) (users s) = Some u →
  find (has_email unknown) (users s) = None →
  let stored := run (Login {| body_email := known; body_password := None |}) s in
  let absent := run (Login {| body_email := unknown; body_password := None |}) s in
  stored = ({| status := 500;
               body := ServerError "Server error" IllegalArguments |}, s)
  ∧ absent = ({| status := 400; body := Message "Invalid credentials" |}, s)
  ∧ stored.1 ≠ absent.1.
Proof.
  intros Hknown Hunknown. unfold run. simpl.
  rewrite (respond_fulfilled _ _ _ _ (login_no_password known u s Hknown)).
  rewrite (respond_fulfilled _ _ _ _
             (login_unknown {| body_email := unknown; body_password := None |}
                s Hunknown)).
  repeat split. simpl. discriminate.
Qed.

End Credentials.

(* ===================================================================== *)
(** ** Text encodings *)
(* ===================================================================== *)

(** A property of all numbers below a bound, checked by running through
    them. *)
Lemma below_forallb (P : N → bool) (k : nat) :
  forallb P (map N.of_nat (seq 0 k)) = true →
  ∀ n, n < N.of_nat k → P n = true.
Proof.
  intros Hall n Hn. rewrite forallb_forall in Hall. apply Hall.
  apply in_map_iff. exists (N.to_nat n). split; [lia|].
  apply in_seq. lia.
Qed.

Lemma b64url_index_char n : n < 64 → b64url_index (b64url_char n) = Some n.
Proof.
  intros Hn.
  apply (below_forallb
           (λ n, bool_decide (b64url_index (b64url_char n) = Some n)) 64)
    in Hn; [by apply bool_decide_eq_true in Hn|].
  vm_compute. reflexivity.
Qed.

Lemma b64url_char_no_dot n : n < 64 → Ascii.eqb (b64url_char n) "." = false.
Proof.
  intros Hn.
  apply (below_forallb (λ n, negb (Ascii.eqb (b64url_char n) ".")) 64)
    in Hn; [by apply negb_true_iff in Hn|].
  vm_compute. reflexivity.
Qed.

Lemma byte_bounded c : byte c < 256.
Proof. apply N_ascii_bounded. Qed.

Lemma ascii_of_byte c : ascii_of_N (byte c) = c.
Proof. apply ascii_N_embedding. Qed.

Ltac divlia := zify; Z.to_euclidean_division_equations; lia.

(** Strings can be taken apart three characters at a time. *)
Lemma string_ind3 (P : string → Prop) :
  P "" →
  (∀ a, P (String a "")) →
  (∀ a b, P (String a (String b ""))) →
  (∀ a b c s, P s → P (String a (String b (String c s)))) →
  ∀ s, P s.
Proof.
  intros H0 H1 H2 H3 s.
  assert (P s ∧ (∀ a, P (String a s)) ∧ (∀ a b, P (String a (String b s))))
    as [Hs _]; [|exact Hs].
  induction s as [|c s (IH0 & IH1 & IH2)].
  - repeat split; [exact H0|exact H1|exact H2].
  - repeat split; [apply IH1|intros a; apply IH2|]. intros a b. by apply H3.
Qed.

Lemma b64url_decode_encode s : b64url_decode (b64url_encode s) = Some s.
Proof.
  induction s as [|a|a b|a b c s IH] using string_ind3.
  - reflexivity.
  - pose proof (byte_bounded a). cbn [b64url_encode b64url_decode].
    rewrite !b64url_index_char by divlia. cbn [mbind option_bind].
    replace ((byte a * 16 / 64 * 64 + byte a * 16 mod 64) / 16)
      with (byte a) by divlia.
    by rewrite ascii_of_byte.
  - pose proof (byte_bounded a). pose proof (byte_bounded b).
    cbn [b64url_encode b64url_decode].
    rewrite !b64url_index_char by divlia. cbn [mbind option_bind].
    set (n := (byte a * 256 + byte b) * 4).
    replace ((n / 4096 * 64 + n / 64 mod 64) * 64 + n mod 64)
      with n by (subst n; divlia).
    replace (n / 1024) with (byte a) by (subst n; divlia).
    replace (n / 4 mod 256) with (byte b) by (subst n; divlia).
    by rewrite !ascii_of_byte.
  - pose proof (byte_bounded a). pose proof (byte_bounded b).
    pose proof (byte_bounded c).
    cbn [b64url_encode b64url_decode].
    rewrite !b64url_index_char by divlia. cbn [mbind option_bind].
    rewrite IH. cbn [mbind option_bind].
    set (n := byte a * 65536 + byte b * 256 + byte c).
    replace (((n / 262144 * 64 + n / 4096 mod 64) * 64 + n / 64 mod 64) * 64
             + n mod 64) with n by (subst n; divlia).
    replace (n / 65536) with (byte a) by (subst n; divlia).
    replace (n / 256 mod 256) with (byte b) by (subst n; divlia).
    replace (n mod 256) with (byte c) by (subst n; divlia).
    by rewrite !ascii_of_byte.
Qed.

Lemma b64url_encode_no_dot s : occurs "." (b64url_encode s) = false.
Proof.
  induction s as [|a|a b|a b c s IH] using string_ind3.
  - reflexivity.
  - pose proof (byte_bounded a). cbn [b64url_encode occurs].
    rewrite !b64url_char_no_dot by divlia. reflexivity.
  - pose proof (byte_bounded a). pose proof (byte_bounded b).
    cbn [b64url_encode occurs].
    rewrite !b64url_char_no_dot by divlia. reflexivity.
  - pose proof (byte_bounded a). pose proof (byte_bounded b).
    pose proof (byte_bounded c).
    cbn [b64url_encode occurs].
    rewrite !b64url_char_no_dot by divlia. exact IH.
Qed.

(** *** JSON string literals *)

Lemma append_nil (b : string) : "" +:+ b = b.
Proof. reflexivity. Qed.

Lemma append_cons x (a b : string) : String x a +:+ b = String x (a +:+ b).
Proof. reflexivity. Qed.

Lemma append_assoc (a b c : string) : (a +:+ b) +:+ c = a +:+ (b +:+ c).
Proof.
  induction a as [|x a IH]; [reflexivity|].
  rewrite !append_cons. f_equal. exact IH.
Qed.

(** Pushes an append through the characters of a literal on its left. *)
Ltac append_norm :=
  repeat (rewrite append_assoc || rewrite append_cons || rewrite append_nil).

Lemma json_unquote_escape_char c k :
  json_unquote (json_escape_char c +:+ k) = cons_fst c <$> json_unquote k.
Proof. destruct c as [[] [] [] [] [] [] [] []]; reflexivity. Qed.

(** Reading back what [JSON.stringify] wrote for a string, up to the
    closing quote. *)
Lemma json_unquote_escape s k :
  json_unquote (json_escape s +:+ String dquote k) = Some (s, k).
Proof.
  induction s as [|c s IH]; [reflexivity|].
  cbn [json_escape]. rewrite append_assoc, json_unquote_escape_char, IH.
  reflexivity.
Qed.

Lemma json_quote_app s k :
  json_quote s +:+ k = String dquote (json_escape s +:+ String dquote k).
Proof. unfold json_quote. by append_norm. Qed.

Lemma expect_app lit k : expect lit (lit +:+ k) = Some k.
Proof.
  induction lit as [|a lit IH]; [by destruct k|].
  rewrite append_cons. simpl. by rewrite Ascii.eqb_refl.
Qed.

(** *** Identifiers in hexadecimal *)

Lemma uint_of_zeros k digits :
  NilEmpty.uint_of_string (zeros k +:+ digits)
  = Nat.iter k Hexadecimal.D0 <$> NilEmpty.uint_of_string digits.
Proof.
  induction k as [|k IH]; cbn [zeros]; append_norm.
  - by destruct (NilEmpty.uint_of_string digits).
  - cbn [NilEmpty.uint_of_string]. rewrite IH.
    by destruct (NilEmpty.uint_of_string digits).
Qed.

Lemma of_hex_uint_zeros k d :
  N.of_hex_uint (Nat.iter k Hexadecimal.D0 d) = N.of_hex_uint d.
Proof. induction k as [|k IH]; [reflexivity|exact IH]. Qed.

Lemma ofHexString_padded k digits d :
  NilEmpty.uint_of_string digits = Some d →
  zeros k +:+ digits ≠ "" →
  ofHexString (zeros k +:+ digits) = Some (N.of_hex_uint d).
Proof.
  intros Hd Hne. unfold ofHexString.
  destruct (zeros k +:+ digits) eqn:Heq; [done|].
  rewrite <- Heq, uint_of_zeros, Hd. simpl. by rewrite of_hex_uint_zeros.
Qed.

Lemma ofHexString_toHexString (o : ObjectId) : ofHexString (toHexString o) = Some o.
Proof.
  unfold toHexString.
  rewrite (ofHexString_padded _ _ (N.to_hex_uint o)).
  - by rewrite Unsigned.of_to.
  - apply NilEmpty.usu.
  - destruct (NilEmpty.string_of_uint (N.to_hex_uint o)) as [|a r]; [done|].
    by destruct (24 - String.length (String a r))%nat.
Qed.

(** *** The payload *)

Lemma expect_eq lit s k : s = lit +:+ k → expect lit s = Some k.
Proof. intros ->. apply expect_app. Qed.

Lemma claims_of_json_of_claims c : claims_of_json (json_of_claims c) = Some c.
Proof.
  destruct c as [oid email]. unfold claims_of_json, json_of_claims.
  cbn [Claims.id Claims.email].
  rewrite (json_quote_app (toHexString oid)), (json_quote_app email).
  rewrite (expect_eq _ _
    (json_escape (toHexString oid) +:+ String dquote
       ("," +:+ json_quote "email" +:+ ":" +:+ String dquote
          (json_escape email +:+ String dquote "}")))) by reflexivity.
  cbn [mbind option_bind]. rewrite json_unquote_escape.
  cbn [mbind option_bind].
  rewrite (expect_eq _ _ (json_escape email +:+ String dquote "}"))
    by reflexivity.
  cbn [mbind option_bind]. rewrite json_unquote_escape.
  cbn [mbind option_bind].
  rewrite String.eqb_refl, ofHexString_toHexString. reflexivity.
Qed.

(** *** Splitting at a separator *)

Lemma split_on_absent sep s : occurs sep s = false → split_on sep s = [s].
Proof.
  induction s as [|c s IH]; simpl; [done|]. intros Hocc.
  apply orb_false_iff in Hocc as [Hc Hs]. by rewrite Hc, IH.
Qed.

Lemma split_on_app sep a b :
  occurs sep a = false →
  split_on sep (a +:+ String sep b) = a :: split_on sep b.
Proof.
  induction a as [|c a IH]; append_norm; simpl.
  - intros _. by rewrite Ascii.eqb_refl.
  - intros Hocc. apply orb_false_iff in Hocc as [Hc Ha].
    by rewrite Hc, IH.
Qed.

Lemma split_on_three sep a b c :
  occurs sep a = false → occurs sep b = false → occurs sep c = false →
  split_on sep (a +:+ String sep (b +:+ String sep c)) = [a; b; c].
Proof.
  intros Ha Hb Hc.
  by rewrite split_on_app, split_on_app, split_on_absent.
Qed.

(* ===================================================================== *)
(** ** Tokens and the auth middleware *)
(* ===================================================================== *)

Section Authentication.
Context {platform : Platform}.

Lemma jwt_verify_sign (c : Claims.t) (secret : string) :
  jwt_verify (jwt_sign c secret) secret = Some c.
Proof.
  unfold jwt_verify, jwt_sign. cbv zeta.
  set (h := b64url_encode jwt_header).
  set (p := b64url_encode (json_of_claims c)).
  set (sg := b64url_encode (hmac secret (h +:+ "." +:+ p))).
  replace ((h +:+ "." +:+ p) +:+ "." +:+ sg)
    with (h +:+ String "." (p +:+ String "." sg)) by (by append_norm).
  rewrite split_on_three by apply b64url_encode_no_dot.
  rewrite !String.eqb_refl. cbn [andb]. subst p.
  rewrite b64url_decode_encode. cbn [mbind option_bind].
  apply claims_of_json_of_claims.
Qed.

(** A token that is not three dot-separated parts is refused. *)
Lemma jwt_verify_malformed (token secret : string) :
  length (split_on "." token) ≠ 3%nat → jwt_verify token secret = None.
Proof.
  unfold jwt_verify. intros Hlen.
  destruct (split_on "." token) as [|h [|p [|sg [|extra pieces]]]]; try done.
Qed.

(** A token whose third part is not the signature of the first two under
    the secret is refused. *)
Lemma jwt_verify_bad_signature (header payload signature secret : string) :
  occurs "." header = false →
  occurs "." payload = false →
  occurs "." signature = false →
  signature ≠ b64url_encode (hmac secret (header +:+ "." +:+ payload)) →
  jwt_verify (header +:+ "." +:+ payload +:+ "." +:+ signature) secret = None.
Proof.
  intros Hh Hp Hsg Hne. unfold jwt_verify.
  replace (header +:+ "." +:+ payload +:+ "." +:+ signature)
    with (header +:+ String "." (payload +:+ String "." signature))
    by (by append_norm).
  rewrite split_on_three by done.
  apply String.eqb_neq in Hne. rewrite Hne, andb_false_r. reflexivity.
Qed.

Lemma bearer_token_bearer token :
  bearer_token (Some ("Bearer " +:+ token)) = Some token.
Proof. unfold bearer_token. cbn [mbind option_bind]. apply expect_app. Qed.

(** What has to be refused yields no identity. *)
Lemma refused_no_identity authorization :
  refused authorization →
  bearer_token authorization ≫= (λ token, jwt_verify token JWT_SECRET) = None.
Proof.
  intros [|h Hscheme|token Hlen|header payload signature Hh Hp Hsg Hne
          |token Hverify].
  - reflexivity.
  - unfold bearer_token. cbn [mbind option_bind]. by rewrite Hscheme.
  - rewrite bearer_token_bearer. cbn [mbind option_bind].
    by apply jwt_verify_malformed.
  - replace ("Bearer " +:+ header +:+ "." +:+ payload +:+ "." +:+ signature)
      with ("Bearer " +:+ (header +:+ "." +:+ payload +:+ "." +:+ signature))
      by (by append_norm).
    rewrite bearer_token_bearer. cbn [mbind option_bind].
    by apply jwt_verify_bad_signature.
  - rewrite bearer_token_bearer. cbn [mbind option_bind]. exact Hverify.
Qed.

Lemma auth_refuses authorization (next : Claims.t → Async Response) s :
  refused authorization →
  auth authorization next s = (inr (res_status_json 401 Unauthenticated), s).
Proof.
  intros Hrefused. apply refused_no_identity in Hrefused. unfold auth.
  destruct (bearer_token authorization) as [token|]; [|reflexivity].
  cbn [mbind option_bind] in Hrefused. by rewrite Hrefused.
Qed.

(** C4.  When the authorization header has to be refused (it is missing,
    is no bearer credential, or carries a token that is malformed or fails
    verification), [auth] answers 401 and leaves the store as it was,
    whatever the downstream handler is: the handler is not run.  So do both
    protected routes.  When the header carries a token that verifies,
    [auth] runs the downstream handler on the decoded identity: the two
    protected routes then answer as the create and the join handler do for
    that identity, with the store those handlers leave. *)
Theorem auth_guards (authorization : option string)
    (next : Claims.t → Async Response) (s : Store) :
  (refused authorization →
   auth authorization next s
   = (inr {| status := 401; body := Unauthenticated |}, s)
   ∧ (∀ fields, serve (POST_tournaments authorization fields) s
                = ({| status := 401; body := Unauthenticated |}, s))
   ∧ (∀ id, serve (POST_tournaments_join authorization id) s
            = ({| status := 401; body := Unauthenticated |}, s)))
  ∧ (∀ token user,
       authorization = Some ("Bearer " +:+ token) →
       jwt_verify token JWT_SECRET = Some user →
       auth authorization next s = next user s
       ∧ (∀ fields, serve (POST_tournaments authorization fields) s
                    = run (CreateTournament user fields) s)
       ∧ (∀ id, serve (POST_tournaments_join authorization id) s
                = run (JoinTournament user id) s)).
Proof.
  split.
  - intros Hrefused. split; [by apply auth_refuses|].
    split; intros x; unfold serve; simpl; apply respond_fulfilled;
      by apply auth_refuses.
  - intros token user -> Hverify.
    assert (∀ k : Claims.t → Async Response,
              auth (Some ("Bearer " +:+ token)) k s = k user s) as Hruns.
    { intros k. unfold auth. by rewrite bearer_token_bearer, Hverify. }
    split; [apply Hruns|].
    split; intros x; unfold serve, run, respond; simpl; by rewrite Hruns.
Qed.

(** C3.  Verifying, under a secret, the token issued under that secret for
    an identifier and an email yields exactly that identifier and email.
    In particular a login with the email of a stored user and a password
    matching the stored hash answers 200 with a token that verifies, under
    the process secret, to the identifier and email of that user. *)
Theorem token_roundtrip :
  (∀ (subjectId : ObjectId) (email secret : string),
     jwt_verify
       (jwt_sign {| Claims.id := subjectId; Claims.email := email |} secret)
       secret
     = Some {| Claims.id := subjectId; Claims.email := email |})
  ∧ (∀ (s : Store) (email password : string) (u : User.t),
       find (has_email email) (users s) = Some u →
       bcrypt_compare password (User.password u) = true →
       ∃ token,
         run (Login {| body_email := email;
                         body_password := Some password |}) s
         = ({| status := 200; body := Token token |}, s)
         ∧ jwt_verify token JWT_SECRET
           = Some {| Claims.id := User._id u; Claims.email := User.email u |}).
Proof.
  split.
  - intros subjectId email secret. apply jwt_verify_sign.
  - intros s email password u Hfind Hcmp. eexists. split.
    + unfold run. simpl. apply respond_fulfilled.
      by apply login_right_password.
    + apply jwt_verify_sign.
Qed.

End Authentication.

(* ===================================================================== *)
(** ** The scenario, run *)
(* ===================================================================== *)

Lemma scenario_reachable : @reachable test_platform scenario_store.
Proof. apply reachable_run_all, reachable_empty. Qed.

Lemma scenario_cup : tournaments scenario_store !! 1 = Some cup_document.
Proof. vm_compute. reflexivity. Qed.

Lemma scenario_alice :
  find (has_email "a@x.com") (users scenario_store) = Some alice_user.
Proof. vm_compute. reflexivity. Qed.

(** Bob joins the cup twice. *)
Lemma join_idempotent_witness :
  @reachable test_platform scenario_store
  ∧ @castObjectId test_platform cup_id = Some 1
  ∧ tournaments scenario_store !! 1 = Some cup_document
  ∧ ∃ t' s',
      @join_repeatedly test_platform 2 bob cup_id scenario_store
      = ([res_json (Document t'); res_json (Document t')], s')
      ∧ occurrences (Claims.id bob) (Tournament.participants t') = 1%nat
      ∧ Tournament.participants t' = [0; 7].
Proof.
  assert (@castObjectId test_platform cup_id = Some 1) as Hcast
    by (vm_compute; reflexivity).
  split; [exact scenario_reachable|]. split; [exact Hcast|].
  split; [exact scenario_cup|].
  destruct (@join_idempotent test_platform bob cup_id 1 cup_document
              scenario_store 2 scenario_reachable Hcast scenario_cup
              (le_S 1 1 (le_n 1)))
    as (t' & s' & _ & Hrepeat & _ & _ & Honce & Hnew & _).
  exists t', s'. split; [exact Hrepeat|]. split; [exact Honce|].
  apply Hnew. vm_compute. intros Hin. inversion Hin; subst.
  match goal with H : _ ∈ [] |- _ => inversion H end.
Defined.

(** Bob creates a tournament after the scenario; Alice then joins the cup. *)
Lemma owner_is_participant_witness :
  @reachable test_platform scenario_store
  ∧ ∃ t s',
      respond (createTournament bob cup) scenario_store
      = (res_json (Document t), s')
      ∧ Tournament.participants t = [7]
      ∧ ∃ t', tournaments
                (@run_all test_platform [JoinTournament alice cup_id] s')
              !! Tournament._id t = Some t'
              ∧ 7 ∈ Tournament.participants t'.
Proof.
  split; [exact scenario_reachable|].
  destruct (@owner_is_participant test_platform bob cup scenario_store
              scenario_reachable)
    as (t & s' & Hres & Hby & Hps & _ & _ & Hlater).
  exists t, s'. split; [exact Hres|]. split; [exact Hps|].
  destruct (Hlater [JoinTournament alice cup_id])
    as (t' & Hk & _ & Hin).
  exists t'. split; [exact Hk|exact Hin].
Defined.

(** The cup scenario has no tournament under identifier 9. *)
Lemma join_unknown_tournament_witness :
  @castObjectId test_platform (toHexString 9) = Some 9
  ∧ tournaments scenario_store !! 9 = None
  ∧ respond (@joinTournament test_platform bob (toHexString 9)) scenario_store
    = ({| status := 404; body := Message "Not found" |}, scenario_store).
Proof.
  assert (@castObjectId test_platform (toHexString 9) = Some 9) as Hcast
    by (vm_compute; reflexivity).
  assert (tournaments scenario_store !! 9 = None) as Hnone
    by (vm_compute; reflexivity).
  split; [exact Hcast|]. split; [exact Hnone|].
  exact (@join_unknown_tournament test_platform bob (toHexString 9) 9
           scenario_store Hcast Hnone).
Defined.

(** The route parameter [abc] is no identifier. *)
Lemma join_malformed_id_witness :
  @castObjectId test_platform "abc" = None
  ∧ respond (@joinTournament test_platform bob "abc") scenario_store
    = ({| status := 500; body := ServerError "Server error" (CastError "abc") |},
       scenario_store).
Proof.
  assert (@castObjectId test_platform "abc" = None) as Hcast
    by (vm_compute; reflexivity).
  split; [exact Hcast|].
  exact (proj1 (@join_malformed_id test_platform bob "abc" scenario_store Hcast)).
Defined.

(** Carol registers twice after the scenario. *)
Lemma register_twice_witness :
  @reachable test_platform scenario_store
  ∧ count_email "c@x.com" scenario_store = 0%nat
  ∧ ∃ s1,
      @run test_platform
        (Register "s1" {| body_email := "c@x.com"; body_password := Some "pw" |})
        scenario_store
      = ({| status := 200; body := Message "Registered" |}, s1)
      ∧ @run test_platform
          (Register "s2" {| body_email := "c@x.com"; body_password := Some "pw" |})
          s1
        = ({| status := 400; body := Message "User exists" |}, s1)
      ∧ count_email "c@x.com" s1 = 1%nat.
Proof.
  assert (count_email "c@x.com" scenario_store = 0%nat) as Hfresh
    by (vm_compute; reflexivity).
  split; [exact scenario_reachable|]. split; [exact Hfresh|].
  destruct (@register_twice test_platform "c@x.com" "pw" "pw" "s1" "s2"
              scenario_store scenario_reachable)
    as (res1 & s1 & Hfirst & Hsecond & Hone & Hok).
  exists s1. rewrite <- (Hok Hfresh). split; [exact Hfirst|].
  split; [exact Hsecond|exact Hone].
Defined.

(** Alice's email with a wrong password, and an email nobody has. *)
Lemma login_failure_uniform_example :
  find (has_email "a@x.com") (users scenario_store) = Some alice_user
  ∧ @bcrypt_compare test_platform "nope" (User.password alice_user) = false
  ∧ find (has_email "z@x.com") (users scenario_store) = None
  ∧ @run test_platform
      (Login {| body_email := "z@x.com"; body_password := Some "pw1" |})
      scenario_store
    = @run test_platform
        (Login {| body_email := "a@x.com"; body_password := Some "nope" |})
        scenario_store.
Proof.
  assert (@bcrypt_compare test_platform "nope" (User.password alice_user) = false)
    as Hwrong by (vm_compute; reflexivity).
  assert (find (has_email "z@x.com") (users scenario_store) = None)
    as Hunknown by (vm_compute; reflexivity).
  split; [exact scenario_alice|]. split; [exact Hwrong|].
  split; [exact Hunknown|].
  exact (proj1 (proj2 (@login_failure_uniform test_platform "a@x.com" "z@x.com"
                         "nope" (Some "pw1") alice_user scenario_store
                         scenario_alice Hwrong Hunknown))).
Defined.

(** Alice's email and an email nobody has, both without a password. *)
Lemma login_failure_reveals_email_witness :
  find (has_email "a@x.com") (users scenario_store) = Some alice_user
  ∧ find (has_email "z@x.com") (users scenario_store) = None
  ∧ @run test_platform
      (Login {| body_email := "a@x.com"; body_password := None |}) scenario_store
    = ({| status := 500; body := ServerError "Server error" IllegalArguments |},
       scenario_store)
  ∧ @run test_platform
      (Login {| body_email := "z@x.com"; body_password := None |}) scenario_store
    = ({| status := 400; body := Message "Invalid credentials" |},
       scenario_store).
Proof.
  assert (find (has_email "z@x.com") (users scenario_store) = None)
    as Hunknown by (vm_compute; reflexivity).
  split; [exact scenario_alice|]. split; [exact Hunknown|].
  destruct (@login_failure_reveals_email test_platform "a@x.com" "z@x.com"
              alice_user scenario_store scenario_alice Hunknown)
    as (Hstored & Habsent & _).
  split; [exact Hstored|exact Habsent].
Defined.

(** Alice logs in with her password. *)
Lemma token_roundtrip_witness :
  find (has_email "a@x.com") (users scenario_store) = Some alice_user
  ∧ @bcrypt_compare test_platform "pw1" (User.password alice_user) = true
  ∧ ∃ token,
      @run test_platform (Login alice_credentials) scenario_store
      = ({| status := 200; body := Token token |}, scenario_store)
      ∧ @jwt_verify test_platform token "test-secret" = Some alice.
Proof.
  assert (@bcrypt_compare test_platform "pw1" (User.password alice_user) = true)
    as Hright by (vm_compute; reflexivity).
  split; [exact scenario_alice|]. split; [exact Hright|].
  exact (proj2 (@token_roundtrip test_platform) scenario_store "a@x.com" "pw1"
           alice_user scenario_alice Hright).
Defined.

(** A token naming Bob under the signature of Alice's token is refused;
    with her own token Alice creates a tournament and joins the cup. *)
Lemma auth_guards_witness :
  @refused test_platform forged_authorization
  ∧ @serve test_platform (POST_tournaments_join forged_authorization cup_id)
      scenario_store
    = ({| status := 401; body := Unauthenticated |}, scenario_store)
  ∧ @jwt_verify test_platform alice_token "test-secret" = Some alice
  ∧ @serve test_platform
      (POST_tournaments (Some ("Bearer " +:+ alice_token)) cup) scenario_store
    = @run test_platform (CreateTournament alice cup) scenario_store
  ∧ @serve test_platform
      (POST_tournaments_join (Some ("Bearer " +:+ alice_token)) cup_id)
      scenario_store
    = ({| status := 200; body := Document cup_document |}, scenario_store).
Proof.
  assert (@refused test_platform forged_authorization) as Hrefused.
  { apply (@refused_signature test_platform).
    - apply b64url_encode_no_dot.
    - apply b64url_encode_no_dot.
    - apply b64url_encode_no_dot.
    - apply String.eqb_neq. vm_compute. reflexivity. }
  assert (@jwt_verify test_platform alice_token "test-secret" = Some alice)
    as Hverify by apply (@jwt_verify_sign test_platform).
  split; [exact Hrefused|]. split; [|split; [exact Hverify|]].
  - exact (proj2 (proj2 (proj1 (@auth_guards test_platform forged_authorization
                                  (λ _, mret (res_json Unauthenticated))
                                  scenario_store) Hrefused)) cup_id).
  - destruct (proj2 (@auth_guards test_platform
                       (Some ("Bearer " +:+ alice_token))
                       (λ _, mret (res_json Unauthenticated)) scenario_store)
                alice_token alice eq_refl Hverify) as (_ & Hcreate & Hjoin).
    split; [exact (Hcreate cup)|].
    rewrite (Hjoin cup_id). vm_compute. reflexivity.
Defined.

(* ===================================================================== *)
(** * Further properties of the handlers *)
(* ===================================================================== *)


(** Splits on the cases a call can be in; the equations of the cases are
    left in the context. *)
Ltac call_cases c s :=
  destruct c as [?salt [?e [?p|]]|[?e [?p|]]|?u ?b|?u ?id]; simpl in *;
  [destruct (find (has_email e) (users s)) as [?u|] eqn:?Hfind
  |destruct (find (has_email e) (users s)) as [?u|] eqn:?Hfind
  |destruct (find (has_email e) (users s)) as [?u|] eqn:?Hfind;
   [destruct (bcrypt_compare p (User.password u)) eqn:?Hcmp|]
  |destruct (find (has_email e) (users s)) as [?u|] eqn:?Hfind
  |
  |destruct (castObjectId id) as [?oid|] eqn:?Hcast;
   [destruct (tournaments s !! oid) as [?t|] eqn:?Hlook;
    [destruct (decide (Claims.id u ∈ Tournament.participants t))
       as [?Hin|?Hout]|]|]].

Section Answers.
Context {platform : Platform}.


(** X2.  A call that is not answered 200 has written nothing: whatever the
    call and the store, a response with another status comes with the
    store as it was. *)
Theorem failure_writes_nothing (c : Call) (s : Store) :
  status (run c s).1 ≠ 200 → (run c s).2 = s.
Proof.
  unfold run. call_cases c s.
  - by rewrite (respond_fulfilled _ _ _ _
                  (register_exists salt (mkCredentials e (Some p)) u s Hfind)).
  - by rewrite (respond_fulfilled _ _ _ _ (register_new salt e p s Hfind)).
  - by rewrite (respond_fulfilled _ _ _ _
                  (register_exists salt (mkCredentials e None) u s Hfind)).
  - by rewrite (respond_fulfilled _ _ _ _ (register_no_password salt e s Hfind)).
  - by rewrite (respond_fulfilled _ _ _ _
                  (login_right_password e p u s Hfind Hcmp)).
  - by rewrite (respond_fulfilled _ _ _ _
                  (login_wrong_password e p u s Hfind Hcmp)).
  - by rewrite (respond_fulfilled _ _ _ _
                  (login_unknown (mkCredentials e (Some p)) s Hfind)).
  - by rewrite (respond_fulfilled _ _ _ _ (login_no_password e u s Hfind)).
  - by rewrite (respond_fulfilled _ _ _ _
                  (login_unknown (mkCredentials e None) s Hfind)).
  - intros Hstatus. by destruct Hstatus.
  - by rewrite (respond_fulfilled _ _ _ _
                  (join_member u id oid t s Hcast Hlook Hin)).
  - by rewrite (respond_fulfilled _ _ _ _
                  (join_non_member u id oid t s Hcast Hlook Hout)).
  - by rewrite (respond_fulfilled _ _ _ _ (join_not_found u id oid s Hcast Hlook)).
  - by rewrite (respond_fulfilled _ _ _ _ (join_cast_error u id s Hcast)).
Qed.

(** X3.  A login never changes the store, and it is answered 200 exactly
    when the body carries a password, a user is stored under the email, and
    [bcrypt.compare] accepts the password against the hash of the first
    such user. *)
Theorem login_reads_only (req_body : Credentials) (s : Store) :
  (run (Login req_body) s).2 = s
  ∧ (status (run (Login req_body) s).1 = 200
     ↔ ∃ u p,
         find (has_email (body_email req_body)) (users s) = Some u
         ∧ body_password req_body = Some p
         ∧ bcrypt_compare p (User.password u) = true).
Proof.
  unfold run. destruct req_body as [e [p|]]; simpl;
    destruct (find (has_email e) (users s)) as [u|] eqn:Hfind.
  - destruct (bcrypt_compare p (User.password u)) eqn:Hcmp.
    + rewrite (respond_fulfilled _ _ _ _
                 (login_right_password e p u s Hfind Hcmp)).
      split; [done|]. split; [|done]. intros _. by exists u, p.
    + rewrite (respond_fulfilled _ _ _ _
                 (login_wrong_password e p u s Hfind Hcmp)).
      split; [done|]. split; [done|].
      intros (u' & p' & Hu & Hp & Hcmp'). congruence.
  - rewrite (respond_fulfilled _ _ _ _
               (login_unknown (mkCredentials e (Some p)) s Hfind)).
    split; [done|]. split; [done|]. by intros (u' & p' & Hu & _).
  - rewrite (respond_fulfilled _ _ _ _ (login_no_password e u s Hfind)).
    split; [done|]. split; [done|]. by intros (u' & p' & _ & Hp & _).
  - rewrite (respond_fulfilled _ _ _ _
               (login_unknown (mkCredentials e None) s Hfind)).
    split; [done|]. split; [done|]. by intros (u' & p' & Hu & _).
Qed.

(** X4.  After the registration of a free email with a password, a login
    with that email is answered with a token for the new user, under the
    identifier the registration gave it, exactly when [bcrypt.compare]
    accepts the login password against the hash made at registration;
    otherwise it is answered 400, [Invalid credentials]. *)
Theorem register_then_login (email password attempt salt : string) (s : Store) :
  find (has_email email) (users s) = None →
  let s1 := (run (Register salt {| body_email := email;
                                   body_password := Some password |}) s).2 in
  run (Login {| body_email := email; body_password := Some attempt |}) s1
  = (if bcrypt_compare attempt (bcrypt_hash 10 salt password)
     then res_json (Token (jwt_sign {| Claims.id := next_id s;
                                       Claims.email := email |} JWT_SECRET))
     else res_status_json 400 (Message "Invalid credentials"),
     s1).
Proof.
  intros Hfind. unfold run. simpl.
  rewrite (respond_fulfilled _ _ _ _ (register_new salt email password s Hfind)).
  simpl.
  set (new := {| User._id := next_id s; User.email := email;
                 User.password := bcrypt_hash 10 salt password |}).
  set (s1 := {| users := users s ++ [new]; tournaments := tournaments s;
                next_id := N.succ (next_id s) |}).
  assert (find (has_email email) (users s1) = Some new) as Hnew.
  { simpl. rewrite find_app_none by done. simpl. unfold has_email. simpl.
    by rewrite String.eqb_refl. }
  destruct (bcrypt_compare attempt (bcrypt_hash 10 salt password)) eqn:Hcmp.
  - by rewrite (respond_fulfilled _ _ _ _
                  (login_right_password email attempt new s1 Hnew Hcmp)).
  - by rewrite (respond_fulfilled _ _ _ _
                  (login_wrong_password email attempt new s1 Hnew Hcmp)).
Qed.

(** X5.  A body without a password: a register is answered 400,
    [User exists], when the email is stored and 500 otherwise; a login is
    answered 500 when the email is stored and 400, [Invalid credentials],
    otherwise.  Neither stores anything. *)
Theorem missing_password (email salt : string) (s : Store) :
  run (Register salt {| body_email := email; body_password := None |}) s
  = (match find (has_email email) (users s) with
     | Some _ => res_status_json 400 (Message "User exists")
     | None => res_status_json 500 (ServerError "Server error" IllegalArguments)
     end, s)
  ∧ run (Login {| body_email := email; body_password := None |}) s
    = (match find (has_email email) (users s) with
       | Some _ => res_status_json 500 (ServerError "Server error" IllegalArguments)
       | None => res_status_json 400 (Message "Invalid credentials")
       end, s).
Proof.
  unfold run. simpl.
  destruct (find (has_email email) (users s)) as [u|] eqn:Hfind.
  - rewrite (respond_fulfilled _ _ _ _
               (register_exists salt (mkCredentials email None) u s Hfind)).
    by rewrite (respond_fulfilled _ _ _ _ (login_no_password email u s Hfind)).
  - rewrite (respond_fulfilled _ _ _ _ (register_no_password salt email s Hfind)).
    by rewrite (respond_fulfilled _ _ _ _
                  (login_unknown (mkCredentials email None) s Hfind)).
Qed.

End Answers.

(* ===================================================================== *)
(** ** What the store keeps *)
(* ===================================================================== *)

Lemma head_app_keep {A} (l : list A) (x y : A) :
  head l = Some x → head (l ++ [y]) = Some x.
Proof. by destruct l. Qed.

Lemma find_unique (u : User.t) (l : list User.t) :
  NoDup (User.email <$> l) → u ∈ l →
  find (has_email (User.email u)) l = Some u.
Proof.
  induction l as [|v l IH]; simpl; intros Hnodup Hin.
  - by apply elem_of_nil in Hin.
  - apply NoDup_cons in Hnodup as [Hv Hnodup]. unfold has_email at 1.
    apply elem_of_cons in Hin as [->|Hin].
    + by rewrite String.eqb_refl.
    + destruct (String.eqb_spec (User.email v) (User.email u)) as [Heq|Hne].
      * exfalso. apply Hv. rewrite Heq. apply list_elem_of_fmap. eauto.
      * by apply IH.
Qed.

Section Keeping.
Context {platform : Platform}.

Lemma owner_first_step s s' :
  (∀ k t, tournaments s !! k = Some t →
          head (Tournament.participants t) = Some (Tournament.createdBy t)) →
  store_step s s' →
  ∀ k t, tournaments s' !! k = Some t →
         head (Tournament.participants t) = Some (Tournament.createdBy t).
Proof.
  intros Hfirst Hstep.
  destruct Hstep as [|u Hid Hfind|t0 Hid Hps|oid t0 c Hlook Hout];
    simpl; intros k t Hk; eauto.
  - apply lookup_insert_Some in Hk as [[<- <-]|[Hne Hk]]; eauto.
    by rewrite Hps.
  - apply lookup_insert_Some in Hk as [[<- <-]|[Hne Hk]]; eauto.
    simpl. apply head_app_keep. eauto.
Qed.

Lemma owner_first s :
  reachable s →
  ∀ k t, tournaments s !! k = Some t →
         head (Tournament.participants t) = Some (Tournament.createdBy t).
Proof.
  induction 1 as [|s c _ IH].
  - intros k t Hk. simpl in Hk. by rewrite lookup_empty in Hk.
  - eapply owner_first_step; [exact IH|apply run_step].
Qed.

(** X6.  In every store the server can reach, each tournament is stored
    under its own identifier, its first participant is its owner, and no
    participant occurs twice. *)
Theorem participants_invariant (s : Store) (k : ObjectId) (t : Tournament.t) :
  reachable s →
  tournaments s !! k = Some t →
  Tournament._id t = k
  ∧ head (Tournament.participants t) = Some (Tournament.createdBy t)
  ∧ NoDup (Tournament.participants t).
Proof.
  intros Hreach Hk. pose proof (reachable_ok _ Hreach) as Hok.
  split; [by eapply ok_key|]. split; [by eapply owner_first|by eapply ok_nodup].
Qed.

(** X7.  In every store the server can reach, no two users share an email:
    looking a stored user's email up finds that very user. *)
Theorem emails_are_unique (s : Store) (u : User.t) :
  reachable s →
  u ∈ users s →
  User_findOne (User.email u) s = (inr (Some u), s)
  ∧ count_email (User.email u) s = 1%nat.
Proof.
  intros Hreach Hin. pose proof (ok_emails _ (reachable_ok _ Hreach)) as Hnodup.
  pose proof (find_unique _ _ Hnodup Hin) as Hfind.
  split.
  - unfold User_findOne. async. by rewrite Hfind.
  - by eapply count_email_found.
Qed.

Lemma history_step s s' k t :
  store_ok s → store_step s s' →
  tournaments s !! k = Some t →
  users s `prefix_of` users s'
  ∧ ∃ t', tournaments s' !! k = Some t'
          ∧ Tournament._id t' = Tournament._id t
          ∧ Tournament.name t' = Tournament.name t
          ∧ Tournament.description t' = Tournament.description t
          ∧ Tournament.createdBy t' = Tournament.createdBy t
          ∧ Tournament.participants t `prefix_of` Tournament.participants t'.
Proof.
  intros Hok Hstep Hk.
  destruct Hstep as [|u Hid Hfind|t0 Hid Hps|oid t0 c Hlook Hout]; simpl.
  - split; [done|]. by exists t.
  - split; [by apply prefix_app_r|]. by exists t.
  - split; [done|]. exists t. split; [|done].
    rewrite lookup_insert_ne; [done|].
    pose proof (ok_fresh _ Hok _ _ Hk). lia.
  - split; [done|]. pose proof (ok_key _ Hok _ _ Hlook) as Hoid.
    destruct (decide (oid = k)) as [->|Hne].
    + assert (t0 = t) as -> by congruence.
      exists (push t c). split; [rewrite Hoid; apply lookup_insert_eq|].
      repeat split. simpl. by apply prefix_app_r.
    + exists t. split; [|done]. by rewrite Hoid, lookup_insert_ne.
Qed.

Lemma users_step s s' : store_step s s' → users s `prefix_of` users s'.
Proof.
  intros [|u Hid Hfind|t0 Hid Hps|oid t0 c Hlook Hout]; simpl; try done.
  by apply prefix_app_r.
Qed.

Lemma users_kept cs s : users s `prefix_of` users (run_all cs s).
Proof.
  revert s. induction cs as [|c cs IH]; intros s; [done|].
  simpl. etrans; [apply users_step, (run_step c s)|apply IH].
Qed.

(** X8.  Nothing stored is ever removed or rewritten.  From a store the
    server can reach, after any further calls, the users stored before are
    still there, unchanged and in the same order, with new ones only after
    them; and every tournament stored before is still stored under its
    identifier with the same name, description and owner, its participants
    of before in the same order, with new ones only after them. *)
Theorem history_is_kept (later : list Call) (s : Store) :
  reachable s →
  users s `prefix_of` users (run_all later s)
  ∧ ∀ k t,
      tournaments s !! k = Some t →
      ∃ t', tournaments (run_all later s) !! k = Some t'
            ∧ Tournament._id t' = Tournament._id t
            ∧ Tournament.name t' = Tournament.name t
            ∧ Tournament.description t' = Tournament.description t
            ∧ Tournament.createdBy t' = Tournament.createdBy t
            ∧ Tournament.participants t `prefix_of` Tournament.participants t'.
Proof.
  intros Hreach. split; [apply users_kept|].
  pose proof (reachable_ok _ Hreach) as Hok. clear Hreach.
  revert s Hok. induction later as [|c cs IH]; intros s Hok k t Hk.
  - by exists t.
  - simpl.
    destruct (history_step _ _ _ _ Hok (run_step c s) Hk)
      as (_ & t1 & Hk1 & Hid1 & Hname1 & Hdesc1 & Hby1 & Hps1).
    destruct (IH _ (store_ok_step _ _ Hok (run_step c s)) _ _ Hk1)
      as (t2 & Hk2 & Hid2 & Hname2 & Hdesc2 & Hby2 & Hps2).
    exists t2. repeat split; try congruence; try done. by etrans.
Qed.

End Keeping.

(* ===================================================================== *)
(** ** How the tournament operations compose *)
(* ===================================================================== *)

Section Composition.
Context {platform : Platform}.

(** X9.  In every store the server can reach, a join touches at most the
    tournament its parameter names: the users, and every tournament under
    another identifier, are what they were, whatever the caller and the
    parameter. *)
Theorem join_frame (caller : Claims.t) (id : string) (s : Store) :
  reachable s →
  let s' := (run (JoinTournament caller id) s).2 in
  users s' = users s
  ∧ ∀ k, castObjectId id ≠ Some k → tournaments s' !! k = tournaments s !! k.
Proof.
  intros Hreach. pose proof (reachable_ok _ Hreach) as Hok.
  unfold run. simpl.
  destruct (castObjectId id) as [oid|] eqn:Hcast;
    [destruct (tournaments s !! oid) as [t|] eqn:Hlook;
     [destruct (decide (Claims.id caller ∈ Tournament.participants t))
        as [Hin|Hout]|]|].
  - by rewrite (respond_fulfilled _ _ _ _
                  (join_member caller id oid t s Hcast Hlook Hin)).
  - rewrite (respond_fulfilled _ _ _ _
               (join_non_member caller id oid t s Hcast Hlook Hout)).
    simpl. split; [done|]. intros k Hk.
    rewrite (ok_key _ Hok _ _ Hlook). apply lookup_insert_ne. congruence.
  - by rewrite (respond_fulfilled _ _ _ _
                  (join_not_found caller id oid s Hcast Hlook)).
  - by rewrite (respond_fulfilled _ _ _ _ (join_cast_error caller id s Hcast)).
Qed.

(** X10.  In every store the server can reach, creating a tournament uses
    an identifier under which nothing was stored, and leaves the users and
    every tournament stored before as they were. *)
Theorem create_frame (caller : Claims.t) (fields : TournamentFields) (s : Store) :
  reachable s →
  let s' := (run (CreateTournament caller fields) s).2 in
  tournaments s !! next_id s = None
  ∧ is_Some (tournaments s' !! next_id s)
  ∧ users s' = users s
  ∧ ∀ k t, tournaments s !! k = Some t → tournaments s' !! k = Some t.
Proof.
  intros Hreach. pose proof (reachable_ok _ Hreach) as Hok.
  assert (tournaments s !! next_id s = None) as Hfree.
  { destruct (tournaments s !! next_id s) as [t|] eqn:Hk; [|done].
    pose proof (ok_fresh _ Hok _ _ Hk). lia. }
  unfold run. simpl. split; [exact Hfree|]. split.
  - rewrite lookup_insert_eq. eauto.
  - split; [done|]. intros k t Hk. rewrite lookup_insert_ne; [done|].
    intros <-. congruence.
Qed.

Lemma run_all_cons c cs s : run_all (c :: cs) s = run_all cs (run c s).2.
Proof. reflexivity. Qed.

Lemma joins_from (callers : list Claims.t) (id : string) (oid : ObjectId) :
  castObjectId id = Some oid →
  ∀ s t,
    tournaments s !! oid = Some t →
    Tournament._id t = oid →
    ∃ t', tournaments (run_all (joins callers id) s) !! oid = Some t'
          ∧ Tournament.participants t'
            = foldl add_participant (Tournament.participants t)
                (Claims.id <$> callers).
Proof.
  intros Hcast. induction callers as [|u us IH]; intros s t Hlook Hid.
  - by exists t.
  - unfold joins. rewrite fmap_cons. fold (joins us id).
    rewrite run_all_cons. unfold run at 1. simpl.
    unfold add_participant at 2, includes.
    destruct (decide (Claims.id u ∈ Tournament.participants t)) as [Hin|Hout].
    + rewrite (respond_fulfilled _ _ _ _
                 (join_member u id oid t s Hcast Hlook Hin)).
      rewrite bool_decide_eq_true_2 by done. by apply IH.
    + rewrite (respond_fulfilled _ _ _ _
                 (join_non_member u id oid t s Hcast Hlook Hout)).
      rewrite bool_decide_eq_false_2 by done.
      apply (IH _ (push t (Claims.id u))); [|done].
      simpl. rewrite Hid. apply lookup_insert_eq.
Qed.

(** X11.  In every store the server can reach, joins of one tournament by
    a sequence of callers leave its participants as they were, followed by
    the callers who were not among them, each once, in the order of their
    first join. *)
Theorem joins_accumulate (callers : list Claims.t) (id : string)
    (oid : ObjectId) (t : Tournament.t) (s : Store) :
  reachable s →
  castObjectId id = Some oid →
  tournaments s !! oid = Some t →
  ∃ t', tournaments (run_all (joins callers id) s) !! oid = Some t'
        ∧ Tournament.participants t'
          = foldl add_participant (Tournament.participants t)
              (Claims.id <$> callers).
Proof.
  intros Hreach Hcast Hlook.
  eapply joins_from; [exact Hcast|exact Hlook|].
  by eapply ok_key; [apply reachable_ok|].
Qed.

(** X12.  The owner joining the tournament just created changes nothing:
    when the route parameter is the identifier of the new tournament, the
    join is answered with the very document the creation answered with,
    and the store stays as the creation left it. *)
Theorem create_then_owner_join (caller : Claims.t) (fields : TournamentFields)
    (id : string) (s : Store) :
  castObjectId id = Some (next_id s) →
  let created := run (CreateTournament caller fields) s in
  run (JoinTournament caller id) created.2 = created
  ∧ status created.1 = 200.
Proof.
  intros Hcast. unfold run. simpl. split; [|done].
  apply respond_fulfilled.
  eapply join_member; [exact Hcast|apply lookup_insert_eq|].
  simpl. by apply list_elem_of_singleton.
Qed.

End Composition.

(* ===================================================================== *)
(** ** The first version of the handlers *)
(* ===================================================================== *)

Section Versions.
Context {platform : Platform}.



End Versions.

(* ===================================================================== *)
(** ** Newsletter subscription *)
(* ===================================================================== *)

Section Subscriptions.
Variable validate : string → option string.

Lemma falsy_the_email email :
  Newsletter.falsy email = false →
  email = Some (Newsletter.the_email email) ∧ Newsletter.the_email email ≠ "".
Proof.
  destruct email as [e|]; simpl; [|done]. intros He.
  split; [done|]. by apply String.eqb_neq.
Qed.

(** The three things every stored subscriber email satisfies. *)
Lemma subscribe_keeps email (subs : list string) :
  NoDup subs ∧ Forall (λ e, e ≠ "" ∧ validate e = None) subs →
  let subs' := (Newsletter.subscribe validate email subs).2 in
  NoDup subs' ∧ Forall (λ e, e ≠ "" ∧ validate e = None) subs'.
Proof.
  intros [Hnodup Hall]. unfold Newsletter.subscribe.
  destruct (Newsletter.falsy email) eqn:Hfalsy; [done|].
  apply falsy_the_email in Hfalsy as [_ Hne].
  set (e := Newsletter.the_email email) in *.
  unfold Newsletter.save, Newsletter.findOne.
  destruct (decide (e ∈ subs)) as [Hin|Hout].
  - by rewrite bool_decide_eq_true_2.
  - rewrite bool_decide_eq_false_2 by done.
    destruct (validate e) as [msg|] eqn:Hvalid; [done|]. simpl. split.
    + apply NoDup_app. split; [done|]. split; [|apply NoDup_singleton].
      intros x Hx Hx'. apply list_elem_of_singleton in Hx'. by subst x.
    + apply Forall_app. split; [done|]. by apply Forall_singleton.
Qed.

(** X14.  Whatever requests the subscribe route has answered, starting
    with no subscribers, no email is stored twice, none is empty, and each
    has passed the validation of the schema. *)
Theorem subscribers_invariant (emails : list (option string)) :
  let subs := Newsletter.subscribe_all validate emails [] in
  NoDup subs ∧ Forall (λ e, e ≠ "" ∧ validate e = None) subs.
Proof.
  simpl. unfold Newsletter.subscribe_all.
  assert (NoDup ([] : list string)
          ∧ Forall (λ e, e ≠ "" ∧ validate e = None) []) as Hstart.
  { split; [apply NoDup_nil_2|apply Forall_nil_2]. }
  revert Hstart. generalize ([] : list string).
  induction emails as [|email emails IH]; intros subs Hsubs; [exact Hsubs|].
  simpl. apply IH. by apply subscribe_keeps.
Qed.

(** X15.  An email that is not empty, passes validation and is not yet
    stored is subscribed with 201 and appended; the same request repeated
    is answered 400, [Email already subscribed], and stores nothing. *)
Theorem subscribe_twice (e : string) (subs : list string) :
  e ≠ "" → validate e = None → e ∉ subs →
  Newsletter.subscribe validate (Some e) subs
  = ({| Newsletter.code := 201;
        Newsletter.message := "Subscribed successfully!";
        Newsletter.error := None |}, (subs ++ [e])%list)
  ∧ Newsletter.subscribe validate (Some e) (subs ++ [e])
    = ({| Newsletter.code := 400;
          Newsletter.message := "Email already subscribed";
          Newsletter.error := None |}, (subs ++ [e])%list).
Proof.
  intros Hne Hvalid Hout. unfold Newsletter.subscribe. simpl.
  apply String.eqb_neq in Hne. rewrite Hne.
  unfold Newsletter.save, Newsletter.findOne, Newsletter.the_email. simpl.
  rewrite bool_decide_eq_false_2 by done. rewrite Hvalid.
  rewrite bool_decide_eq_true_2; [done|].
  apply elem_of_app. right. by apply list_elem_of_singleton.
Qed.


End Subscriptions.

(* ===================================================================== *)
(** ** The further properties on the scenario *)
(* ===================================================================== *)

(** A join with the parameter [abc] is answered 500. *)
Lemma failure_writes_nothing_witness :
  status (@run test_platform (JoinTournament bob "abc") scenario_store).1 ≠ 200
  ∧ (@run test_platform (JoinTournament bob "abc") scenario_store).2
    = scenario_store.
Proof.
  assert (status (@run test_platform (JoinTournament bob "abc")
                    scenario_store).1 ≠ 200) as Hstatus
    by (vm_compute; discriminate).
  split; [exact Hstatus|].
  exact (@failure_writes_nothing test_platform (JoinTournament bob "abc")
           scenario_store Hstatus).
Defined.

(** Carol registers, then logs in with her password. *)
Lemma register_then_login_witness :
  find (has_email "c@x.com") (users scenario_store) = None
  ∧ status
      (@run test_platform
         (Login {| body_email := "c@x.com"; body_password := Some "pw" |})
         (@run test_platform
            (Register "s1" {| body_email := "c@x.com";
                              body_password := Some "pw" |})
            scenario_store).2).1 = 200.
Proof.
  assert (find (has_email "c@x.com") (users scenario_store) = None) as Hfree
    by (vm_compute; reflexivity).
  split; [exact Hfree|].
  rewrite (@register_then_login test_platform "c@x.com" "pw" "pw" "s1"
             scenario_store Hfree).
  vm_compute. reflexivity.
Defined.

Lemma participants_invariant_witness :
  @reachable test_platform scenario_store
  ∧ tournaments scenario_store !! 1 = Some cup_document
  ∧ head (Tournament.participants cup_document)
    = Some (Tournament.createdBy cup_document).
Proof.
  split; [exact scenario_reachable|]. split; [exact scenario_cup|].
  exact (proj1 (proj2 (@participants_invariant test_platform scenario_store 1
                         cup_document scenario_reachable scenario_cup))).
Defined.

Lemma emails_are_unique_witness :
  @reachable test_platform scenario_store
  ∧ alice_user ∈ users scenario_store
  ∧ count_email "a@x.com" scenario_store = 1%nat.
Proof.
  assert (alice_user ∈ users scenario_store) as Hin.
  { vm_compute. apply list_elem_of_here. }
  split; [exact scenario_reachable|]. split; [exact Hin|].
  exact (proj2 (@emails_are_unique test_platform scenario_store alice_user
                  scenario_reachable Hin)).
Defined.

(** Bob joins the cup and Carol registers; Alice stays the first user and
    the cup keeps its name. *)
Lemma history_is_kept_witness :
  @reachable test_platform scenario_store
  ∧ [alice_user]
    `prefix_of` users
      (@run_all test_platform
         [JoinTournament bob cup_id;
          Register "s1" {| body_email := "c@x.com";
                           body_password := Some "pw" |}]
         scenario_store)
  ∧ ∃ t', tournaments
            (@run_all test_platform
               [JoinTournament bob cup_id;
                Register "s1" {| body_email := "c@x.com";
                                 body_password := Some "pw" |}]
               scenario_store) !! 1 = Some t'
          ∧ Tournament.name t' = Some "Cup"
          ∧ [0] `prefix_of` Tournament.participants t'.
Proof.
  split; [exact scenario_reachable|].
  destruct (@history_is_kept test_platform
              [JoinTournament bob cup_id;
               Register "s1" {| body_email := "c@x.com";
                                body_password := Some "pw" |}]
              scenario_store scenario_reachable) as (Husers & Hkept).
  split; [exact Husers|].
  destruct (Hkept 1 cup_document scenario_cup)
    as (t' & Hk & _ & Hname & _ & _ & Hps).
  exists t'. split; [exact Hk|]. split; [exact Hname|exact Hps].
Defined.

Lemma join_frame_witness :
  @reachable test_platform scenario_store
  ∧ users (@run test_platform (JoinTournament bob cup_id) scenario_store).2
    = users scenario_store.
Proof.
  split; [exact scenario_reachable|].
  exact (proj1 (@join_frame test_platform bob cup_id scenario_store
                  scenario_reachable)).
Defined.

Lemma create_frame_witness :
  @reachable test_platform scenario_store
  ∧ tournaments scenario_store !! next_id scenario_store = None
  ∧ tournaments (@run test_platform (CreateTournament bob cup) scenario_store).2
    !! 1 = Some cup_document.
Proof.
  split; [exact scenario_reachable|].
  destruct (@create_frame test_platform bob cup scenario_store
              scenario_reachable) as (Hfree & _ & _ & Hkept).
  split; [exact Hfree|]. exact (Hkept 1 cup_document scenario_cup).
Defined.

(** Bob, Alice and Bob again join the cup. *)
Lemma joins_accumulate_witness :
  @reachable test_platform scenario_store
  ∧ @castObjectId test_platform cup_id = Some 1
  ∧ tournaments scenario_store !! 1 = Some cup_document
  ∧ ∃ t', tournaments
            (@run_all test_platform (joins [bob; alice; bob] cup_id)
               scenario_store) !! 1 = Some t'
          ∧ Tournament.participants t' = [0; 7].
Proof.
  assert (@castObjectId test_platform cup_id = Some 1) as Hcast
    by (vm_compute; reflexivity).
  split; [exact scenario_reachable|]. split; [exact Hcast|].
  split; [exact scenario_cup|].
  destruct (@joins_accumulate test_platform [bob; alice; bob] cup_id 1
              cup_document scenario_store scenario_reachable Hcast scenario_cup)
    as (t' & Hk & Hps).
  exists t'. split; [exact Hk|]. rewrite Hps. vm_compute. reflexivity.
Defined.

(** Bob creates a tournament after the scenario and joins it. *)
Lemma create_then_owner_join_witness :
  @castObjectId test_platform (toHexString 2) = Some (next_id scenario_store)
  ∧ @run test_platform (JoinTournament bob (toHexString 2))
      (@run test_platform (CreateTournament bob cup) scenario_store).2
    = @run test_platform (CreateTournament bob cup) scenario_store.
Proof.
  assert (@castObjectId test_platform (toHexString 2)
          = Some (next_id scenario_store)) as Hcast
    by (vm_compute; reflexivity).
  split; [exact Hcast|].
  exact (proj1 (@create_then_owner_join test_platform bob cup (toHexString 2)
                  scenario_store Hcast)).
Defined.

Lemma subscribe_twice_witness :
  "a@x.com" ≠ "" ∧ Newsletter.needs_at "a@x.com" = None
  ∧ ("a@x.com" ∉ ([] : list string))
  ∧ Newsletter.subscribe Newsletter.needs_at (Some "a@x.com") ["a@x.com"]
    = ({| Newsletter.code := 400;
          Newsletter.message := "Email already subscribed";
          Newsletter.error := None |}, ["a@x.com"]).
Proof.
  assert ("a@x.com" ≠ "") as Hne by discriminate.
  assert (Newsletter.needs_at "a@x.com" = None) as Hvalid
    by (vm_compute; reflexivity).
  assert ("a@x.com" ∉ ([] : list string)) as Hout by apply not_elem_of_nil.
  split; [exact Hne|]. split; [exact Hvalid|]. split; [exact Hout|].
  exact (proj2 (subscribe_twice Newsletter.needs_at "a@x.com" [] Hne Hvalid Hout)).
Defined.
